(** * community-simulation: the test-repair scripts and the engine contract

    The repository's sources are four Python scripts (fix_tests.py,
    fix_final.py, fix_remaining.py, simplify_tests.py).  Each one reads
    src/tests/final_push_tests.rs, rewrites the text with [str.replace]
    and [re.sub], writes it back and prints one line.

    Part I embeds the scripts: Python text, [str.replace], the fragment
    of [re] the scripts use (literals, character classes, greedy [*] and
    [+], capturing groups, backtracking), [re.sub] with group references,
    and the file access.  Part II models, from the specification, the
    pieces of the simulation engine the scripts' target tests exercise.
    Part III holds the lemmas and theorems. *)

From Stdlib Require Import NArith ZArith QArith Qabs Lqa Lia List Ascii String Bool.
From stdpp Require Import gmap strings list.

Local Close Scope Q_scope.
Local Open Scope nat_scope.
Local Open Scope list_scope.

(* ===================================================================== *)
(** * Part I.  The scripts                                                *)
(* ===================================================================== *)

(** ** Python text *)

(** A Python [str] is a sequence of Unicode code points. *)
Definition char := N.
Definition text := list char.

(** A source literal; the scripts' literals are all ASCII. *)
Definition txt (s : string) : text :=
  map N_of_ascii (list_ascii_of_string s).

Definition char_eqb (a b : char) : bool := N.eqb a b.

(** [re]'s classes [\d], [\w] and [\s] on a [str] pattern are the Unicode
    ones.  Below code point 256 they are written out; above, they are
    whatever the Unicode database says, which is kept abstract. *)
Class UnicodeDB := {
  uni_decimal : char -> bool;
  uni_alnum : char -> bool;
  uni_space : char -> bool
}.

Definition between (lo hi c : N) : bool := (N.leb lo c && N.leb c hi)%bool.

Definition latin1_decimal (c : char) : bool := between 48 57 c.

Definition latin1_alnum (c : char) : bool :=
  (between 48 57 c || between 65 90 c || between 97 122 c
   || N.eqb c 170 || N.eqb c 178 || N.eqb c 179 || N.eqb c 181
   || N.eqb c 185 || N.eqb c 186 || between 188 190 c
   || between 192 214 c || between 216 246 c || between 248 255 c)%bool.

Definition latin1_space (c : char) : bool :=
  (between 9 13 c || between 28 32 c || N.eqb c 133 || N.eqb c 160)%bool.

Section Classes.
Context {U : UnicodeDB}.

Definition is_digit (c : char) : bool :=
  if N.ltb c 256 then latin1_decimal c else uni_decimal c.

Definition is_word (c : char) : bool :=
  if N.ltb c 256 then (latin1_alnum c || N.eqb c 95)%bool else uni_alnum c.

Definition is_space (c : char) : bool :=
  if N.ltb c 256 then latin1_space c else uni_space c.
End Classes.

(** ** Scanning substitution

    [str.replace] and [re.sub] both walk the text from the left; at each
    position a matcher either fails, and one character is copied, or
    yields the text to insert and the rest of the input after the match.
    After an empty match the insertion is made and one character is
    copied, which is what both functions do (["abc".replace("", "-")] is
    ["-a-b-c-"]). *)

Definition matcher := text -> option (text * text).

Definition copy_one (go : text -> text) (s : text) : text :=
  match s with
  | [] => []
  | c :: s' => c :: go s'
  end.

Fixpoint scan (m : matcher) (fuel : nat) (s : text) : text :=
  match fuel with
  | 0 => s
  | S fuel' =>
      match m s with
      | Some (ins, rest) =>
          if length rest <? length s then ins ++ scan m fuel' rest
          else ins ++ copy_one (scan m fuel') s
      | None => copy_one (scan m fuel') s
      end
  end.

Definition scan_all (m : matcher) (s : text) : text :=
  scan m (S (length s)) s.

(** ** str.replace *)

Fixpoint strip_prefix (p s : text) : option text :=
  match p with
  | [] => Some s
  | a :: p' =>
      match s with
      | [] => None
      | b :: s' => if char_eqb a b then strip_prefix p' s' else None
      end
  end.

Definition replace_matcher (old new : text) : matcher :=
  fun s => match strip_prefix old s with
           | Some rest => Some (new, rest)
           | None => None
           end.

(** [content.replace(old, new)] *)
Definition replace (old new : string) (content : text) : text :=
  scan_all (replace_matcher (txt old) (txt new)) content.

(** [old in content] *)
Fixpoint contains (old : text) (s : text) : bool :=
  match strip_prefix old s with
  | Some _ => true
  | None =>
      match s with
      | [] => false
      | _ :: s' => contains old s'
      end
  end.

(** ** Regular expressions *)

Inductive citem :=
| CChar (c : char)
| CDigit
| CWord
| CSpace.

Record cclass := { negated : bool; members : list citem }.

Inductive quant := Star | Plus.

Inductive atom :=
| Lit (c : char)
| One (cls : cclass)
| Many (q : quant) (cls : cclass).

Inductive node :=
| Atom (a : atom)
| Group (body : list atom).

Definition regex := list node.

Section Matching.
Context {U : UnicodeDB}.

Definition in_item (i : citem) (c : char) : bool :=
  match i with
  | CChar x => char_eqb x c
  | CDigit => is_digit c
  | CWord => is_word c
  | CSpace => is_space c
  end.

Definition in_class (cls : cclass) (c : char) : bool :=
  xorb (negated cls) (existsb (fun i => in_item i c) (members cls)).

(** Greedy repetition with backtracking: the longest run first, then
    shorter ones while the continuation fails. *)
Fixpoint star {A} (cls : cclass) (s : text) (k : text -> option A) : option A :=
  match s with
  | c :: s' =>
      if in_class cls c then
        match star cls s' k with
        | Some r => Some r
        | None => k s
        end
      else k s
  | [] => k []
  end.

Definition match_atom {A} (a : atom) (s : text) (k : text -> option A) : option A :=
  match a with
  | Lit c =>
      match s with
      | x :: s' => if char_eqb c x then k s' else None
      | [] => None
      end
  | One cls =>
      match s with
      | x :: s' => if in_class cls x then k s' else None
      | [] => None
      end
  | Many Star cls => star cls s k
  | Many Plus cls =>
      match s with
      | x :: s' => if in_class cls x then star cls s' k else None
      | [] => None
      end
  end.

Fixpoint match_atoms {A} (r : list atom) (s : text) (k : text -> option A) : option A :=
  match r with
  | [] => k s
  | a :: r' => match_atom a s (fun s' => match_atoms r' s' k)
  end.

(** The text consumed between two positions of the same input. *)
Definition consumed (s s' : text) : text := take (length s - length s') s.

(** Matching at the start of [s]: the groups' texts, in order, and the
    input after the match. *)
Fixpoint match_nodes (r : regex) (s : text) (caps : list text)
  : option (list text * text) :=
  match r with
  | [] => Some (caps, s)
  | Atom a :: r' => match_atom a s (fun s' => match_nodes r' s' caps)
  | Group body :: r' =>
      match_atoms body s
        (fun s' => match_nodes r' s' (caps ++ [consumed s s']))
  end.

Definition re_match (r : regex) (s : text) : option (list text * text) :=
  match_nodes r s [].
End Matching.

(** ** Replacement templates *)

Inductive titem :=
| TLit (c : char)
| TRef (n : nat).

Definition template := list titem.

Definition digit_value (c : char) : option nat :=
  if between 49 57 c then Some (N.to_nat (c - 48)%N) else None.

(** [\1] ... [\9] refer to groups; everything else in the scripts'
    replacement strings stands for itself. *)
Fixpoint parse_template (s : text) : template :=
  match s with
  | [] => []
  | c :: s' =>
      if char_eqb c 92%N then
        match s' with
        | d :: s'' =>
            match digit_value d with
            | Some n => TRef n :: parse_template s''
            | None => TLit c :: parse_template s'
            end
        | [] => [TLit c]
        end
      else TLit c :: parse_template s'
  end.

Definition expand_item (caps : list text) (t : titem) : text :=
  match t with
  | TLit c => [c]
  | TRef n => match n with
              | 0 => []
              | S i => nth i caps []
              end
  end.

Definition expand (t : template) (caps : list text) : text :=
  concat (map (expand_item caps) t).

Section Sub.
Context {U : UnicodeDB}.

Definition sub_matcher (r : regex) (t : template) : matcher :=
  fun s => match re_match r s with
           | Some (caps, rest) => Some (expand t caps, rest)
           | None => None
           end.

Definition sub (r : regex) (t : template) (s : text) : text :=
  scan_all (sub_matcher r t) s.
End Sub.

(** ** Pattern syntax

    The scripts' patterns use: literal characters, backslash escapes of
    punctuation, [\n], the classes [\d] [\w] [\s], bracket classes with
    an optional leading [^], the greedy quantifiers [*] and [+] on a
    single character or class, and capturing groups that are not nested.
    Anything else is refused ([None]). *)

Definition ch (a : ascii) : char := N_of_ascii a.

Definition single (i : citem) : cclass := {| negated := false; members := [i] |}.

Definition escape_item (e : char) : option citem :=
  if char_eqb e (ch "d") then Some CDigit
  else if char_eqb e (ch "w") then Some CWord
  else if char_eqb e (ch "s") then Some CSpace
  else if char_eqb e (ch "n") then Some (CChar 10%N)
  else if (N.ltb e 128 && latin1_alnum e)%bool then None
  else Some (CChar e).

Fixpoint parse_class_body (s : text) (acc : list citem) : option (list citem * text) :=
  match s with
  | [] => None
  | c :: s' =>
      if char_eqb c (ch "]") then Some (rev acc, s')
      else if char_eqb c (ch "-") then None
      else if char_eqb c (ch "[") then None
      else if char_eqb c (ch "\") then
        match s' with
        | e :: s'' =>
            match escape_item e with
            | Some i => parse_class_body s'' (i :: acc)
            | None => None
            end
        | [] => None
        end
      else parse_class_body s' (CChar c :: acc)
  end.

Definition parse_class (s : text) : option (cclass * text) :=
  match s with
  | c :: s' =>
      if char_eqb c (ch "^") then
        match parse_class_body s' [] with
        | Some (m, rest) => Some ({| negated := true; members := m |}, rest)
        | None => None
        end
      else
        match parse_class_body s [] with
        | Some (m, rest) => Some ({| negated := false; members := m |}, rest)
        | None => None
        end
  | [] => None
  end.

Definition special (c : char) : bool :=
  existsb (char_eqb c) (txt ".^$*+?{|()").

(** One character or class, before its quantifier. *)
Definition parse_unit (s : text) : option ((char + cclass) * text) :=
  match s with
  | [] => None
  | c :: s' =>
      if char_eqb c (ch "\") then
        match s' with
        | e :: s'' =>
            match escape_item e with
            | Some (CChar x) => Some (inl x, s'')
            | Some i => Some (inr (single i), s'')
            | None => None
            end
        | [] => None
        end
      else if char_eqb c (ch "[") then
        match parse_class s' with
        | Some (cls, rest) => Some (inr cls, rest)
        | None => None
        end
      else if special c then None
      else Some (inl c, s')
  end.

Definition class_of (u : char + cclass) : cclass :=
  match u with
  | inl c => single (CChar c)
  | inr cls => cls
  end.

Definition parse_atom (s : text) : option (atom * text) :=
  match parse_unit s with
  | None => None
  | Some (u, rest) =>
      match rest with
      | q :: rest' =>
          if char_eqb q (ch "*") then Some (Many Star (class_of u), rest')
          else if char_eqb q (ch "+") then Some (Many Plus (class_of u), rest')
          else if (char_eqb q (ch "?") || char_eqb q (ch "{"))%bool then None
          else Some (match u with inl c => Lit c | inr cls => One cls end, rest)
      | [] => Some (match u with inl c => Lit c | inr cls => One cls end, rest)
      end
  end.

(** The atoms of a group, up to its closing parenthesis. *)
Fixpoint parse_group (fuel : nat) (s : text) : option (list atom * text) :=
  match fuel with
  | 0 => None
  | S fuel' =>
      match s with
      | [] => None
      | c :: s' =>
          if char_eqb c (ch ")") then Some ([], s')
          else
            match parse_atom s with
            | Some (a, rest) =>
                match parse_group fuel' rest with
                | Some (body, rest') => Some (a :: body, rest')
                | None => None
                end
            | None => None
            end
      end
  end.

Fixpoint parse_nodes (fuel : nat) (s : text) : option regex :=
  match fuel with
  | 0 => None
  | S fuel' =>
      match s with
      | [] => Some []
      | c :: s' =>
          if char_eqb c (ch "(") then
            match parse_group fuel' s' with
            | Some (body, rest) =>
                match parse_nodes fuel' rest with
                | Some r => Some (Group body :: r)
                | None => None
                end
            | None => None
            end
          else
            match parse_atom s with
            | Some (a, rest) =>
                match parse_nodes fuel' rest with
                | Some r => Some (Atom a :: r)
                | None => None
                end
            | None => None
            end
      end
  end.

(** [re.compile(pattern)] *)
Definition re_compile (pattern : string) : option regex :=
  parse_nodes (S (length (txt pattern))) (txt pattern).

(** ** Files and output *)

Inductive exn :=
| FileNotFoundError (path : string)
| ReError (pattern : string).

#[global] Instance exn_ret : MRet (sum exn) := fun A x => inr x.
#[global] Instance exn_bind : MBind (sum exn) :=
  fun A B k r => match r with
                 | inr x => k x
                 | inl e => inl e
                 end.

Record world := World { files : gmap string text; stdout : list string }.

Definition io (A : Type) : Type := world -> (exn + A) * world.

Definition ret {A} (x : A) : io A := fun w => (inr x, w).

Definition raise {A} (e : exn) : io A := fun w => (inl e, w).

Definition bind {A B} (c : io A) (k : A -> io B) : io B :=
  fun w => match c w with
           | (inr x, w') => k x w'
           | (inl e, w') => (inl e, w')
           end.

#[global] Instance io_ret : MRet io := @ret.
#[global] Instance io_bind : MBind io := fun A B k c => bind c k.

(** A computation that can only raise or return. *)
Definition lift {A} (r : exn + A) : io A := fun w => (r, w).

(** Text mode reading translates ["\r\n"] and ["\r"] to ["\n"]. *)
Fixpoint universal_newlines (s : text) : text :=
  match s with
  | [] => []
  | c :: s' =>
      if char_eqb c 13%N then
        match s' with
        | d :: s'' =>
            if char_eqb d 10%N then 10%N :: universal_newlines s''
            else 10%N :: universal_newlines s'
        | [] => [10%N]
        end
      else c :: universal_newlines s'
  end.

(** [with open(path, 'r') as f: content = f.read()] *)
Definition read_file (path : string) : io text :=
  fun w => match files w !! path with
           | Some c => (inr (universal_newlines c), w)
           | None => (inl (FileNotFoundError path), w)
           end.

(** [with open(path, 'w') as f: f.write(content)] *)
Definition write_file (path : string) (content : text) : io unit :=
  fun w => (inr tt, {| files := <[path := content]> (files w); stdout := stdout w |}).

(** [print(msg)] *)
Definition print (msg : string) : io unit :=
  fun w => (inr tt, {| files := files w; stdout := stdout w ++ [msg] |}).

Section Scripts.
Context {U : UnicodeDB}.

(** [re.sub(pattern, repl, content)].  The flag [re.DOTALL] some calls
    pass changes the meaning of an unescaped dot only, and the patterns
    have none. *)
Definition re_sub (pattern repl : string) (content : text) : exn + text :=
  match re_compile pattern with
  | Some r => inr (sub r (parse_template (txt repl)) content)
  | None => inl (ReError pattern)
  end.

Definition tests_rs : string := "src/tests/final_push_tests.rs".

Definition newline : string := String "010"%char EmptyString.

(** fix_tests.py, lines 23 and 24: the pattern and the replacement of
    the [record_transaction] rewrite. *)
Definition record_transaction_pattern : string :=
  "person\.record_transaction\((\d+), (TransactionType::\w+), &(\w+\.id), ([\d.]+), ([\d.]+)\)".

Definition record_transaction_repl : string :=
  "person.record_transaction(\1, \3.id.clone(), \2, \4, None)".

(** fix_tests.py, lines 8 to 51: the rewriting of [content]. *)
Definition fix_tests_rewrite (content : text) : exn + text :=
  let content := replace "config.num_persons" "config.entity_count" content in
  let content := replace "config.enable_trade_fees" "config.transaction_fee" content in
  let content := replace "config.trade_fee_rate" "config.transaction_fee" content in
  let content := replace "config.enable_income_tax" "config.tax_rate" content in
  let content := replace "config.income_tax_rate" "config.tax_rate" content in
  let content := replace "config.price_floor" "config.min_skill_price" content in
  let content := replace "config.price_ceiling" "config.max_skill_price" content in
  let content := replace "TransactionType::Purchase" "TransactionType::Buy" content in
  let content := replace "TransactionType::Sale" "TransactionType::Sell" content in
  let content := replace "TransactionType::Production" "TransactionType::Buy" content in
  content ← re_sub record_transaction_pattern record_transaction_repl content;
  content ← re_sub "assert_eq!\(person\.total_purchases_value, [\d.]+\);"
    "// Field removed" content;
  content ← re_sub "assert_eq!\(person\.total_sales_value, [\d.]+\);"
    "// Field removed" content;
  content ← re_sub
    "#\[test\]\s+fn test_engine_checkpoint_save_and_restore\(\) \{[^}]*\}[^}]*\}[^}]*\}"
    "// Checkpoint test removed" content;
  content ← re_sub
    "#\[test\]\s+fn test_engine_checkpoint_with_invalid_path\(\) \{[^}]*\}"
    "// Checkpoint test removed" content;
  content ← re_sub
    "#\[test\]\s+fn test_engine_checkpoint_with_production_enabled\(\) \{[^}]*\}[^}]*\}[^}]*\}"
    "// Checkpoint test removed" content;
  inr content.

(** fix_tests.py *)
Definition fix_tests : io unit :=
  content ← read_file tests_rs;
  content ← lift (fix_tests_rewrite content);
  write_file tests_rs content;;
  print "Fixed tests file".

(** fix_final.py, lines 24 to 28: the [save_to_file] calls get their
    [compress] argument. *)
Definition add_compress_argument (content : text) : exn + text :=
  re_sub "result\.save_to_file\(([^)]+)\)\.unwrap\(\);"
    "result.save_to_file(\1, false).unwrap();" content.

(** fix_final.py, lines 6 to 28. *)
Definition fix_final_rewrite (content : text) : exn + text :=
  let content := replace
    "use crate::person::{Person, TransactionType};"
    "use crate::person::{Person, TransactionType, Strategy, Location};"
    content in
  content ← re_sub
    "let mut person = Person::new\(1, 100\.0, skill1, vec!\[skill2\.id\.clone\(\)\]\);"
    "let mut person = Person::new(1, 100.0, vec![skill1.clone()], Strategy::Conservative, Location::new(0.0, 0.0));"
    content;
  let content := replace "result.total_trades > 0"
    "result.trade_volume_statistics.total_trades > 0" content in
  let content := replace "result.total_trades >= 0"
    "result.trade_volume_statistics.total_trades >= 0" content in
  add_compress_argument content.

(** fix_final.py *)
Definition fix_final : io unit :=
  content ← read_file tests_rs;
  content ← lift (fix_final_rewrite content);
  write_file tests_rs content;;
  print "Fixed final push tests".

(** fix_remaining.py, line 15: the Gini field moves under
    [inequality_metrics]. *)
Definition rename_gini (content : text) : text :=
  replace "result.gini_coefficient" "result.inequality_metrics.gini_coefficient" content.

(** fix_remaining.py, lines 6 to 21. *)
Definition fix_remaining_rewrite (content : text) : exn + text :=
  content ← re_sub
    "#\[test\]\s+fn test_engine_getter_with_inactive_entities\(\) \{[^}]*engine\.entities\[0\]\.active[^}]*\}"
    "" content;
  let content := rename_gini content in
  let content := replace "result.average_transaction_price"
    "result.trade_volume_statistics.average_price" content in
  re_sub "\n\s*,\s*,\s*\n" newline content.

(** fix_remaining.py *)
Definition fix_remaining : io unit :=
  content ← read_file tests_rs;
  content ← lift (fix_remaining_rewrite content);
  write_file tests_rs content;;
  print "Fixed remaining issues".

(** simplify_tests.py, lines 6 to 23. *)
Definition simplify_tests_rewrite (content : text) : exn + text :=
  content ← re_sub "assert!\(result\.money_statistics\.gini_coefficient <= 1\.0\);"
    "// Gini coefficient can be > 1.0 in edge cases with limited data" content;
  content ← re_sub "assert!\(result\.trade_volume_statistics\.total_trades > 0\);"
    "// Trade count checked - can be 0 if no trading opportunities" content;
  re_sub "assert!\(result\.money_statistics\.average > 0\.0\);"
    "// Average checked" content.

(** simplify_tests.py *)
Definition simplify_tests : io unit :=
  content ← read_file tests_rs;
  content ← lift (simplify_tests_rewrite content);
  write_file tests_rs content;;
  print "Relaxed test assertions".
End Scripts.

(** ** What a match says about the matched text and the groups *)

Section Languages.
Context {U : UnicodeDB}.

Definition atom_lang (a : atom) (m : text) : Prop :=
  match a with
  | Lit c => m = [c]
  | One cls => exists x, m = [x] /\ in_class cls x = true
  | Many Star cls => Forall (fun x => in_class cls x = true) m
  | Many Plus cls => m <> [] /\ Forall (fun x => in_class cls x = true) m
  end.

Fixpoint atoms_lang (r : list atom) (m : text) : Prop :=
  match r with
  | [] => m = []
  | a :: r' => exists m1 m2, m = m1 ++ m2 /\ atom_lang a m1 /\ atoms_lang r' m2
  end.

(** The texts the groups of [r] can hold after a match. *)
Fixpoint groups_lang (r : regex) (caps : list text) : Prop :=
  match r with
  | [] => caps = []
  | Atom _ :: r' => groups_lang r' caps
  | Group body :: r' =>
      exists g caps', caps = g :: caps' /\ atoms_lang body g /\ groups_lang r' caps'
  end.
End Languages.

Definition is_lit (t : titem) : bool :=
  match t with
  | TLit _ => true
  | TRef _ => false
  end.

(** The world after a script has written [out] to the test file and
    printed [msg]: every other file and the earlier output are as they
    were. *)
Definition patched (w : world) (out : text) (msg : string) : world :=
  {| files := <[tests_rs := out]> (files w); stdout := stdout w ++ [msg] |}.

(** A Unicode database with nothing in the three classes above code
    point 255, for running the scripts on Latin-1 texts. *)
Definition latin1_only : UnicodeDB :=
  {| uni_decimal := fun _ => false;
     uni_alnum := fun _ => false;
     uni_space := fun _ => false |}.

(** ** Following a search string through a text

    For a search string [p] whose first character occurs nowhere else in
    it, the state of a left-to-right search is the part of [p] still to
    be read; on a mismatch the search restarts, after the first
    character when the mismatching character is that one.  [None] says
    an occurrence has been read in full. *)

Definition track_step (p rem : text) (x : char) : text :=
  match rem with
  | y :: rem' =>
      if char_eqb x y then rem'
      else match p with
           | c0 :: p' => if char_eqb x c0 then p' else p
           | [] => []
           end
  | [] => []
  end.

Fixpoint track (p rem : text) (s : text) : option text :=
  match s with
  | [] => Some rem
  | x :: s' =>
      match track_step p rem x with
      | [] => None
      | rem' => track p rem' s'
      end
  end.

(** The states of the search: the non-empty ends of [p]. *)
Fixpoint states (p : text) : list text :=
  match p with
  | [] => []
  | _ :: p' => p :: states p'
  end.

Definition text_eqb (a b : text) : bool := bool_decide (a = b).

(** Reading [ins] from any state brings the search back to its start. *)
Definition resets (p ins : text) : bool :=
  forallb (fun rem => match track p rem ins with
                      | Some rem' => text_eqb rem' p
                      | None => false
                      end) (states p).

(** [Rewrites Ins s t]: [t] is [s] with some disjoint pieces replaced,
    left to right, by texts that satisfy [Ins]. *)
Inductive Rewrites (Ins : text -> Prop) : text -> text -> Prop :=
| rw_nil : Rewrites Ins [] []
| rw_copy x s t : Rewrites Ins s t -> Rewrites Ins (x :: s) (x :: t)
| rw_subst m n s t : Ins n -> Rewrites Ins s t -> Rewrites Ins (m ++ s) (n ++ t).

(* ===================================================================== *)
(** * Part II.  The engine the rewritten tests exercise                   *)
(* ===================================================================== *)

(** The engine is Rust code of the repository that is not among the
    sources; the scripts only rewrite its tests.  The definitions below
    follow the specification (sections 3, 4.1, 4.2 and 7).  What the
    specification leaves to the implementation is a field of [Policy]. *)

Module Engine.

(** Modelled from the spec: the Rust records of section 3, which are not
    in the sources.  Currency amounts and fractions are rationals. *)
Record Skill := { skill_id : nat; price : Q }.

Record Location := { loc_x : Q; loc_y : Q }.

Inductive Strategy := Conservative | OtherStrategy (mode : nat).

Inductive TransactionType := Buy | Sell.

Record Transaction := {
  tx_step : nat;
  tx_skill : nat;
  tx_kind : TransactionType;
  tx_amount : Q;
  tx_counterparty : option nat
}.

Record Person := {
  person_id : nat;
  money : Q;
  skills : list Skill;
  strategy : Strategy;
  location : Location;
  active : bool;
  transaction_log : list Transaction
}.

Record EngineConfig := {
  entity_count : nat;
  transaction_fee : Q;
  tax_rate : Q;
  min_skill_price : Q;
  max_skill_price : Q
}.

Record SimulationResult := {
  total_trades : nat;
  average_price : Q;
  money_average : Q;
  money_gini_coefficient : Q;
  inequality_gini_coefficient : Q
}.

Inductive EngineState := Uninitialized | Populated | Stepping | Completed.

Inductive Error :=
| ConfigError
| InvalidState
| IoError
| SerializationError
| VersionMismatch.

Record Engine := {
  config : EngineConfig;
  entities : list Person;
  state : EngineState;
  current_step : nat
}.

(** A matched buy and sell intent. *)
Record Trade := {
  buyer : nat;
  seller : nat;
  traded_skill : nat;
  trade_amount : Q
}.

(** Modelled from the spec: what section 4 leaves open.  The generated
    attributes of the i-th entity; the trades a step matches (strategy
    evaluation and matching policy); the price a trade asks for, before
    clamping; the strict-balance policy; the exit rule; the aggregator. *)
Class Policy := {
  attributes : EngineConfig -> nat -> Q * list Skill * Strategy * Location;
  decide : EngineConfig -> nat -> list Person -> list Trade;
  reprice : EngineConfig -> Trade -> Q -> Q;
  strict_balance : bool;
  exits : EngineConfig -> Person -> bool;
  aggregate : list Person -> SimulationResult
}.

(** Modelled from the spec: "validated at construction (fee and tax in
    [0,1]; min <= max price)". *)
Definition in_unit (x : Q) : bool := (Qle_bool 0 x && Qle_bool x 1)%bool.

Definition valid_config (cfg : EngineConfig) : bool :=
  (in_unit (transaction_fee cfg) && in_unit (tax_rate cfg)
   && Qle_bool (min_skill_price cfg) (max_skill_price cfg))%bool.

(** Modelled from the spec: "Price is clamped to bounds whenever mutated
    by trading". *)
Definition clamp (lo hi x : Q) : Q :=
  if Qle_bool x lo then lo else if Qle_bool hi x then hi else x.

(** Modelled from the spec: [Person::new], "constructing an active
    entity with an empty transaction log". *)
Definition new_person (id : nat) (initial_money : Q) (sk : list Skill)
    (st : Strategy) (loc : Location) : Person :=
  {| person_id := id; money := initial_money; skills := sk; strategy := st;
     location := loc; active := true; transaction_log := [] |}.

Section Model.
Context {P : Policy}.

(** Modelled from the spec: [record_transaction], which "appends a
    Transaction, and applies the balance effect (debit on Buy, credit on
    Sell) net of configured transaction fee; fails silently only if the
    resulting money would go negative under a strict-balance policy". *)
Definition record_transaction (cfg : EngineConfig) (step : nat) (skill : nat)
    (kind : TransactionType) (amount : Q) (counterparty : option nat)
    (p : Person) : Person :=
  let fee := (amount * transaction_fee cfg)%Q in
  let balance :=
    match kind with
    | Buy => (money p - (amount + fee))%Q
    | Sell => (money p + (amount - fee))%Q
    end in
  if (strict_balance && negb (Qle_bool 0 balance))%bool then p
  else
    {| person_id := person_id p; money := balance; skills := skills p;
       strategy := strategy p; location := location p; active := active p;
       transaction_log :=
         transaction_log p ++
         [{| tx_step := step; tx_skill := skill; tx_kind := kind;
             tx_amount := amount; tx_counterparty := counterparty |}] |}.

(** Modelled from the spec: the price mutation of a trade, absent from
    the sources; the traded skill gets the asked price "clamped into
    [min_skill_price, max_skill_price]". *)
Definition update_price (cfg : EngineConfig) (t : Trade) (s : Skill) : Skill :=
  if Nat.eqb (skill_id s) (traded_skill t) then
    {| skill_id := skill_id s;
       price := clamp (min_skill_price cfg) (max_skill_price cfg)
                  (reprice cfg t (price s)) |}
  else s.

Definition with_skills (p : Person) (sk : list Skill) : Person :=
  {| person_id := person_id p; money := money p; skills := sk;
     strategy := strategy p; location := location p; active := active p;
     transaction_log := transaction_log p |}.

(** Modelled from the spec: "tax_rate to any income event". *)
Definition tax_income (cfg : EngineConfig) (amount : Q) (p : Person) : Person :=
  {| person_id := person_id p; money := (money p - amount * tax_rate cfg)%Q;
     skills := skills p; strategy := strategy p; location := location p;
     active := active p; transaction_log := transaction_log p |}.

(** Modelled from the spec: "on a match, applies transaction_fee to the
    transacting pair and tax_rate to any income event, clamps resulting
    skill price into [min_skill_price, max_skill_price], and calls
    record_transaction on both sides with consistent counterparty
    linkage". *)
Definition apply_trade (cfg : EngineConfig) (step : nat) (t : Trade) (p : Person) : Person :=
  if Nat.eqb (person_id p) (buyer t) then
    record_transaction cfg step (traded_skill t) Buy (trade_amount t) (Some (seller t))
      (with_skills p (map (update_price cfg t) (skills p)))
  else if Nat.eqb (person_id p) (seller t) then
    tax_income cfg (trade_amount t)
      (record_transaction cfg step (traded_skill t) Sell (trade_amount t) (Some (buyer t))
         (with_skills p (map (update_price cfg t) (skills p))))
  else p.

(** Modelled from the spec: "deactivated (not deleted) when it exits
    the simulation, preserving its historical record". *)
Definition retire (cfg : EngineConfig) (p : Person) : Person :=
  if exits cfg p then
    {| person_id := person_id p; money := money p; skills := skills p;
       strategy := strategy p; location := location p; active := false;
       transaction_log := transaction_log p |}
  else p.

(** Modelled from the spec: [Engine::new], "construction-time
    validation failures are fatal and surfaced immediately, never
    silently defaulted". *)
Definition new (cfg : EngineConfig) : Error + Engine :=
  if valid_config cfg then
    inr {| config := cfg;
           entities :=
             map (fun i => let '(m, sk, st, loc) := attributes cfg i in
                           new_person i m sk st loc)
                 (seq 0 (entity_count cfg));
           state := Populated;
           current_step := 0 |}
  else inl ConfigError.

(** Modelled from the spec: "step() is legal only in Populated or
    Stepping". *)
Definition step (e : Engine) : Error + Engine :=
  match state e with
  | Populated | Stepping =>
      let cfg := config e in
      let traded :=
        fold_left (fun es t => map (apply_trade cfg (current_step e) t) es)
          (decide cfg (current_step e) (entities e)) (entities e) in
      inr {| config := cfg;
             entities := map (retire cfg) traded;
             state := Stepping;
             current_step := S (current_step e) |}
  | Uninitialized | Completed => inl InvalidState
  end.

Fixpoint steps (n : nat) (e : Engine) : Error + Engine :=
  match n with
  | 0 => inr e
  | S n' =>
      match step e with
      | inr e' => steps n' e'
      | inl err => inl err
      end
  end.

(** Modelled from the spec: "run(steps) repeats step() steps times then
    delegates to the Statistics Aggregator"; it "ends in Completed", and
    "calling run() on a Completed engine is disallowed (fails with an
    InvalidState error)".  The model has no reset operation. *)
Definition run (e : Engine) (n : nat) : Error + SimulationResult * Engine :=
  match state e with
  | Populated | Stepping =>
      match steps n e with
      | inr e' =>
          inr (aggregate (entities e'),
               {| config := config e'; entities := entities e';
                  state := Completed; current_step := current_step e' |})
      | inl err => inl err
      end
  | Uninitialized | Completed => inl InvalidState
  end.




End Model.

(** A configuration is invalid when a rate leaves [0,1] or the price
    floor exceeds the ceiling. *)
Definition invalid_config (cfg : EngineConfig) : Prop :=
  (transaction_fee cfg < 0 \/ 1 < transaction_fee cfg \/
   tax_rate cfg < 0 \/ 1 < tax_rate cfg \/
   max_skill_price cfg < min_skill_price cfg)%Q.

Definition Qsum (l : list Q) : Q := fold_right Qplus 0%Q l.

Definition mean (l : list Q) : Q :=
  match l with
  | [] => 0%Q
  | _ => (Qsum l / inject_Z (Z.of_nat (length l)))%Q
  end.

(** Half the mean absolute difference over the mean of the absolute
    values, 0 where that is undefined. *)
Definition sample_gini (l : list Q) : Q :=
  let diffs := Qsum (flat_map (fun x => map (fun y => Qabs (x - y)) l) l) in
  let total := Qsum (map Qabs l) in
  if Qeq_bool total 0 then 0%Q
  else (diffs / (2 * inject_Z (Z.of_nat (length l)) * total))%Q.

Definition wealth (p : Person) : Q := (money p + Qsum (map price (skills p)))%Q.

(** One way to aggregate: a trade is logged by both parties and counted
    once; the average price of no trade is 0. *)
Definition sample_aggregate (es : list Person) : SimulationResult :=
  let log := flat_map transaction_log es in
  {| total_trades := length log / 2;
     average_price := mean (map tx_amount log);
     money_average := mean (map money es);
     money_gini_coefficient := sample_gini (map money es);
     inequality_gini_coefficient := sample_gini (map wealth es) |}.

(** A policy for running the model: two skills per entity priced at the
    floor and the ceiling, entity 0 buys skill 0 from entity 1 at every
    step, and the asked price doubles. *)
Definition sample_policy : Policy :=
  {| attributes := fun cfg i =>
       (100%Q,
        [{| skill_id := 0; price := min_skill_price cfg |};
         {| skill_id := 1; price := max_skill_price cfg |}],
        Conservative, {| loc_x := 0; loc_y := 0 |});
     decide := fun _ _ _ =>
       [{| buyer := 0; seller := 1; traded_skill := 0; trade_amount := 5%Q |}];
     reprice := fun _ _ x => (x * 2)%Q;
     strict_balance := true;
     exits := fun _ p => Qle_bool (money p) 0;
     aggregate := sample_aggregate |}.

Definition sample_config : EngineConfig :=
  {| entity_count := 10; transaction_fee := 1 # 100; tax_rate := 5 # 100;
     min_skill_price := 1; max_skill_price := 100 |}.

Definition overcharging_config : EngineConfig :=
  {| entity_count := 10; transaction_fee := 3 # 2; tax_rate := 5 # 100;
     min_skill_price := 1; max_skill_price := 100 |}.
End Engine.

(* ===================================================================== *)
(** * Part III.  Lemmas and theorems                                      *)
(* ===================================================================== *)

(** ** Prefixes and occurrences *)

Lemma char_eqb_eq (a b : char) : char_eqb a b = true <-> a = b.
Proof. unfold char_eqb. apply N.eqb_eq. Qed.

Lemma char_eqb_refl (a : char) : char_eqb a a = true.
Proof. apply char_eqb_eq. reflexivity. Qed.

Lemma strip_prefix_Some (p s rest : text) :
  strip_prefix p s = Some rest <-> s = p ++ rest.
Proof.
  revert s. induction p as [|a p IH]; intros s; simpl.
  - split; [intros [= ->]; reflexivity | intros ->; reflexivity].
  - destruct s as [|b s]; [split; discriminate|].
    destruct (char_eqb a b) eqn:E.
    + apply char_eqb_eq in E as ->. rewrite IH. split; [intros ->; reflexivity | intros [= ->]; reflexivity].
    + split; [discriminate|]. intros [= -> _]. rewrite char_eqb_refl in E. discriminate.
Qed.

Lemma strip_prefix_app (p rest : text) : strip_prefix p (p ++ rest) = Some rest.
Proof. apply strip_prefix_Some. reflexivity. Qed.

Lemma contains_prefix (p s rest : text) :
  strip_prefix p s = Some rest -> contains p s = true.
Proof. intros H. destruct s; simpl; rewrite H; reflexivity. Qed.

Lemma contains_app (p l r : text) : contains p (l ++ p ++ r) = true.
Proof.
  induction l as [|x l IH]; simpl.
  - apply (contains_prefix p _ r), strip_prefix_app.
  - destruct (strip_prefix p (x :: l ++ p ++ r)); [reflexivity | exact IH].
Qed.

Lemma contains_occurs (p s : text) :
  contains p s = true <-> exists l r, s = l ++ p ++ r.
Proof.
  split.
  - induction s as [|x s IH]; simpl.
    + destruct (strip_prefix p []) as [rest|] eqn:E; [|discriminate].
      intros _. apply strip_prefix_Some in E. exists [], rest. exact E.
    + destruct (strip_prefix p (x :: s)) as [rest|] eqn:E.
      * intros _. apply strip_prefix_Some in E. exists [], rest. exact E.
      * intros H. destruct (IH H) as (l & r & ->). exists (x :: l), r. reflexivity.
  - intros (l & r & ->). apply contains_app.
Qed.

Lemma contains_false_tail (p : text) (x : char) (s : text) :
  contains p (x :: s) = false -> strip_prefix p (x :: s) = None /\ contains p s = false.
Proof.
  simpl. destruct (strip_prefix p (x :: s)); [discriminate|]. intros H. split; [reflexivity | exact H].
Qed.

(** ** The scan *)

Lemma scan_no_match (m : matcher) (fuel : nat) (s : text) :
  (forall l r, s = l ++ r -> m r = None) -> scan m fuel s = s.
Proof.
  revert s. induction fuel as [|fuel IH]; intros s H; simpl; [reflexivity|].
  rewrite (H [] s eq_refl). destruct s as [|x s]; simpl; [reflexivity|].
  f_equal. apply IH. intros l r ->. apply (H (x :: l) r). reflexivity.
Qed.

Lemma scan_rewrites (Ins : text -> Prop) (m : matcher) :
  (forall s ins rest, m s = Some (ins, rest) -> Ins ins /\ exists mt, s = mt ++ rest) ->
  forall fuel s, Rewrites Ins s (scan m fuel s).
Proof.
  intros Hm.
  assert (Hid : forall s, Rewrites Ins s s).
  { induction s; constructor; assumption. }
  assert (Hcopy : forall go s, (forall s', Rewrites Ins s' (go s')) -> Rewrites Ins s (copy_one go s)).
  { intros go [|x s] H; simpl; constructor. apply H. }
  induction fuel as [|fuel IH]; intros s; simpl; [apply Hid|].
  destruct (m s) as [[ins rest]|] eqn:E.
  - destruct (Hm _ _ _ E) as [Hins [mt ->]].
    destruct (length rest <? length (mt ++ rest)).
    + apply rw_subst; [exact Hins | apply IH].
    + apply (rw_subst Ins [] ins); [exact Hins | apply Hcopy, IH].
  - apply Hcopy, IH.
Qed.
(** ** Tracking a search string whose first character is unique in it *)

Lemma track_app (p rem a b : text) :
  track p rem (a ++ b) =
  match track p rem a with
  | Some rem' => track p rem' b
  | None => None
  end.
Proof.
  revert rem. induction a as [|x a IH]; intros rem; simpl; [reflexivity|].
  destruct (track_step p rem x); [reflexivity | apply IH].
Qed.

Lemma states_spec (p rem : text) :
  In rem (states p) <-> rem <> [] /\ exists pre, p = pre ++ rem.
Proof.
  induction p as [|a p IH]; simpl.
  - split; [intros [] | intros [Hne [pre H]]].
    symmetry in H. apply app_eq_nil in H as [_ ->]. apply Hne. reflexivity.
  - rewrite IH. split.
    + intros [<- | [Hne [pre ->]]].
      * split; [discriminate | exists []; reflexivity].
      * split; [exact Hne | exists (a :: pre); reflexivity].
    + intros [Hne [[|b pre] H]].
      * left. exact H.
      * right. injection H as -> ->. split; [exact Hne | exists pre; reflexivity].
Qed.

Section Tracking.
Variable c0 : char.
Variable p' : text.
Hypothesis fresh : forallb (fun y => negb (char_eqb y c0)) p' = true.

Abbreviation p := (c0 :: p').

Definition is_state (rem : text) : Prop := In rem (states p).

Lemma start_state : is_state p.
Proof. left. reflexivity. Qed.

Lemma state_head (rem : text) :
  is_state rem -> rem = p \/ exists y rem', rem = y :: rem' /\ y <> c0.
Proof.
  intros H. apply states_spec in H as [Hne [pre H]].
  destruct pre as [|a pre]; [left; symmetry; exact H | right].
  injection H as -> H. destruct rem as [|y rem']; [contradiction|].
  exists y, rem'. split; [reflexivity|].
  rewrite forallb_forall in fresh.
  assert (Hin : In y p') by (rewrite H, in_app_iff; right; left; reflexivity).
  apply fresh in Hin. intros ->. rewrite char_eqb_refl in Hin. discriminate.
Qed.

Lemma state_tail (y : char) (rem' : text) :
  is_state (y :: rem') -> rem' <> [] -> is_state rem'.
Proof.
  intros H Hne. apply states_spec in H as [_ [pre H]]. apply states_spec.
  split; [exact Hne|]. exists (pre ++ [y]). rewrite <- app_assoc. exact H.
Qed.

Lemma step_state (rem : text) (x : char) :
  is_state rem -> track_step p rem x <> [] -> is_state (track_step p rem x).
Proof.
  intros H. destruct rem as [|y rem']; simpl; [intros []; reflexivity|].
  destruct (char_eqb x y).
  - apply (state_tail y), H.
  - destruct (char_eqb x c0).
    + intros Hne. apply (state_tail c0); [apply start_state | exact Hne].
    + intros _. apply start_state.
Qed.

Lemma step_first (rem : text) : is_state rem -> track_step p rem c0 = p'.
Proof.
  intros H. destruct (state_head rem H) as [-> | (y & rem' & -> & Hy)]; simpl.
  - rewrite char_eqb_refl. reflexivity.
  - destruct (char_eqb c0 y) eqn:E.
    + apply char_eqb_eq in E. congruence.
    + rewrite char_eqb_refl. reflexivity.
Qed.

Lemma step_start (x : char) : track_step p p x = if char_eqb x c0 then p' else p.
Proof. simpl. destruct (char_eqb x c0); reflexivity. Qed.

Lemma track_state (s rem rem1 : text) :
  is_state rem -> track p rem s = Some rem1 -> is_state rem1.
Proof.
  revert rem. induction s as [|x s IH]; intros rem H; simpl.
  - intros [= <-]. exact H.
  - pose proof (step_state rem x H) as Hs.
    destruct (track_step p rem x) as [|y r]; [discriminate|].
    apply IH, Hs. discriminate.
Qed.

(** Starting afresh never finds an occurrence a search already under
    way does not find. *)
Lemma track_from_start (s rem rem0 rem1 : text) :
  is_state rem -> rem0 = rem \/ rem0 = p ->
  track p rem s = Some rem1 ->
  exists r0, track p rem0 s = Some r0 /\ (r0 = rem1 \/ r0 = p).
Proof.
  revert rem rem0. induction s as [|x s IH]; intros rem rem0 H Hrel; cbn [track].
  - intros [= <-]. exists rem0. split; [reflexivity | exact Hrel].
  - destruct Hrel as [-> | ->].
    + destruct (track_step p rem x) as [|y r] eqn:E; [discriminate|].
      apply IH; [|left; reflexivity].
      rewrite <- E. apply step_state; [exact H | rewrite E; discriminate].
    + destruct (char_eqb x c0) eqn:Ex.
      * apply char_eqb_eq in Ex as ->.
        rewrite (step_first rem H), (step_first p start_state).
        intros Ht. exists rem1. split; [exact Ht | left; reflexivity].
      * rewrite step_start, Ex. cbv beta iota.
        pose proof (step_state rem x H) as Hs.
        destruct (track_step p rem x) as [|y r]; [discriminate|].
        intros Ht. apply (IH (y :: r)); [apply Hs; discriminate | right; reflexivity | exact Ht].
Qed.

Lemma track_suffix (suf r : text) :
  suf <> [] -> track p suf (suf ++ r) = None.
Proof.
  induction suf as [|y suf IH]; intros Hne; [contradiction|].
  simpl. rewrite char_eqb_refl.
  destruct suf as [|z suf]; [reflexivity|]. apply IH. discriminate.
Qed.

Lemma track_occurrence (rem r : text) : is_state rem -> track p rem (p ++ r) = None.
Proof.
  intros H. destruct (track p rem (p ++ r)) as [rem1|] eqn:E; [|reflexivity].
  destruct (track_from_start _ rem p rem1 H (or_intror eq_refl) E) as (r0 & Hr0 & _).
  rewrite track_suffix in Hr0; [discriminate | discriminate].
Qed.

(** A search that ends without having found anything: the text holds no
    occurrence. *)
Lemma track_contains (s rem rem1 : text) :
  is_state rem -> track p rem s = Some rem1 -> contains p s = false.
Proof.
  intros H Ht. destruct (contains p s) eqn:E; [|reflexivity].
  apply contains_occurs in E as (l & r & ->).
  rewrite track_app in Ht. destruct (track p rem l) as [q|] eqn:El; [|discriminate].
  rewrite track_occurrence in Ht; [discriminate|].
  apply (track_state l rem q H El).
Qed.

Lemma resets_spec (ins rem : text) :
  resets p ins = true -> is_state rem -> track p rem ins = Some p.
Proof.
  unfold resets. rewrite forallb_forall. intros Hr H. specialize (Hr rem H).
  destruct (track p rem ins) as [r|]; [|discriminate].
  unfold text_eqb in Hr. apply bool_decide_eq_true in Hr. rewrite Hr. reflexivity.
Qed.

(** Replacing pieces of an occurrence-free text by texts that reset the
    search leaves it occurrence-free. *)
Lemma rewrites_track (Ins : text -> Prop) (s t : text) :
  (forall n, Ins n -> forall rem, is_state rem -> track p rem n = Some p) ->
  Rewrites Ins s t ->
  forall rem, is_state rem -> track p rem s <> None -> track p rem t <> None.
Proof.
  intros Hins Hrw. induction Hrw as [|x s t Hrw IH|m n s t Hn Hrw IH]; intros rem H; simpl.
  - discriminate.
  - pose proof (step_state rem x H) as Hs.
    destruct (track_step p rem x) as [|y r]; [intros []; reflexivity|].
    apply IH, Hs. discriminate.
  - rewrite !track_app, (Hins n Hn rem H).
    destruct (track p rem m) as [q|] eqn:Em; [|intros []; reflexivity].
    intros Hq. apply IH; [apply start_state|].
    destruct (track p q s) as [q1|] eqn:Es; [|contradiction].
    destruct (track_from_start s q p q1) as (r0 & -> & _);
      [apply (track_state m rem q H Em) | right; reflexivity | exact Es | discriminate].
Qed.

(** [str.replace] of [p] by a text that resets the search leaves no
    occurrence of [p]. *)
Lemma replace_clears (new : text) :
  resets p new = true ->
  forall fuel s rem, length s < fuel -> is_state rem ->
    rem = p \/ strip_prefix rem s = None ->
    track p rem (scan (replace_matcher p new) fuel s) <> None.
Proof.
  intros Hnew. induction fuel as [|fuel IH]; intros s rem Hlen H Hinv; [lia|].
  cbn [scan]. unfold replace_matcher at 1.
  destruct (strip_prefix p s) as [rest|] eqn:E.
  - apply strip_prefix_Some in E as ->.
    assert (Hl : length rest < length (p ++ rest)) by (rewrite length_app; simpl; lia).
    apply Nat.ltb_lt in Hl as Hb. rewrite Hb.
    rewrite track_app, (resets_spec new rem Hnew H).
    apply IH; [lia | apply start_state | left; reflexivity].
  - destruct s as [|x s]; [simpl; discriminate|].
    cbn [copy_one track]. simpl in Hlen.
    assert (Hp' : char_eqb x c0 = true -> strip_prefix p' s = None).
    { intros Ex. simpl in E. rewrite char_eqb_eq in Ex. subst x.
      rewrite char_eqb_refl in E. exact E. }
    assert (Hgo : forall r, r <> [] -> is_state r -> r = p \/ strip_prefix r s = None ->
              match r with
              | [] => None
              | y :: r' => track p (y :: r') (scan (replace_matcher p new) fuel s)
              end <> None).
    { intros r Hne Hr Hi. destruct r; [contradiction|]. apply IH; [lia | exact Hr | exact Hi]. }
    assert (Hnil : forall r, strip_prefix r s = None -> r <> []).
    { intros r Hr ->. discriminate. }
    destruct rem as [|y rem'];
      [destruct (proj1 (states_spec _ _) H) as [Hne _]; contradiction|].
    cbn [track_step]. destruct (char_eqb x y) eqn:Exy.
    + apply char_eqb_eq in Exy as <-.
      assert (Hr : strip_prefix rem' s = None).
      { destruct Hinv as [Hinv | Hinv].
        - injection Hinv as -> ->. apply Hp', char_eqb_refl.
        - simpl in Hinv. rewrite char_eqb_refl in Hinv. exact Hinv. }
      apply Hgo; [apply Hnil, Hr | apply (state_tail x), Hnil, Hr; exact H | right; exact Hr].
    + destruct (char_eqb x c0) eqn:Ex.
      * specialize (Hp' eq_refl).
        apply Hgo; [apply Hnil, Hp' | apply (state_tail c0), Hnil, Hp'; apply start_state | right; exact Hp'].
      * apply (Hgo p); [discriminate | apply start_state | left; reflexivity].
Qed.

Lemma replace_clears_all (new s : text) :
  resets p new = true ->
  contains p (scan_all (replace_matcher p new) s) = false.
Proof.
  intros Hnew. unfold scan_all.
  pose proof (replace_clears new Hnew (S (length s)) s p (Nat.lt_succ_diag_r _)
                start_state (or_introl eq_refl)) as H.
  destruct (track p p (scan (replace_matcher p new) (S (length s)) s)) as [r|] eqn:E;
    [|contradiction].
  apply (track_contains _ p r start_state E).
Qed.
End Tracking.

(** On a text without occurrences [str.replace] copies its input. *)
Lemma replace_absent (old new s : text) (fuel : nat) :
  contains old s = false -> scan (replace_matcher old new) fuel s = s.
Proof.
  intros H. apply scan_no_match. intros l r ->. unfold replace_matcher.
  destruct (strip_prefix old r) as [rest|] eqn:E; [|reflexivity].
  apply strip_prefix_Some in E as ->.
  rewrite contains_app in H. discriminate.
Qed.

(** ** Soundness of the matcher *)

Section MatchSound.
Context {U : UnicodeDB}.

Lemma star_sound {A} (cls : cclass) (s : text) (k : text -> option A) (v : A) :
  star cls s k = Some v ->
  exists m s', s = m ++ s' /\ Forall (fun x => in_class cls x = true) m /\ k s' = Some v.
Proof.
  induction s as [|x s IH]; simpl.
  - intros H. exists [], []. auto.
  - destruct (in_class cls x) eqn:Ex.
    + destruct (star cls s k) as [r|] eqn:Es.
      * intros [= ->]. destruct (IH eq_refl) as (m & s' & -> & Hm & Hk).
        exists (x :: m), s'. repeat split; [constructor; assumption | exact Hk].
      * intros H. exists [], (x :: s). auto.
    + intros H. exists [], (x :: s). auto.
Qed.

Lemma match_atom_sound {A} (a : atom) (s : text) (k : text -> option A) (v : A) :
  match_atom a s k = Some v ->
  exists m s', s = m ++ s' /\ atom_lang a m /\ k s' = Some v.
Proof.
  destruct a as [c|cls|[|] cls]; simpl.
  - destruct s as [|x s]; [discriminate|].
    destruct (char_eqb c x) eqn:E; [|discriminate].
    apply char_eqb_eq in E as ->. intros H. exists [x], s. auto.
  - destruct s as [|x s]; [discriminate|].
    destruct (in_class cls x) eqn:E; [|discriminate].
    intros H. exists [x], s. repeat split; [exists x; auto | exact H].
  - apply star_sound.
  - destruct s as [|x s]; [discriminate|].
    destruct (in_class cls x) eqn:E; [|discriminate].
    intros H. apply star_sound in H as (m & s' & -> & Hm & Hk).
    exists (x :: m), s'. repeat split; [discriminate | constructor; assumption | exact Hk].
Qed.

Lemma match_atoms_sound {A} (r : list atom) (s : text) (k : text -> option A) (v : A) :
  match_atoms r s k = Some v ->
  exists m s', s = m ++ s' /\ atoms_lang r m /\ k s' = Some v.
Proof.
  revert s k. induction r as [|a r IH]; intros s k; simpl.
  - intros H. exists [], s. auto.
  - intros H. apply match_atom_sound in H as (m1 & s1 & -> & Ha & H).
    apply IH in H as (m2 & s2 & -> & Hr & H).
    exists (m1 ++ m2), s2. rewrite <- app_assoc. repeat split; [|exact H].
    exists m1, m2. auto.
Qed.

Lemma consumed_app (m s' : text) : consumed (m ++ s') s' = m.
Proof.
  unfold consumed. rewrite length_app.
  replace (length m + length s' - length s') with (length m) by lia.
  apply take_app_length.
Qed.

Lemma match_nodes_sound (r : regex) (s : text) (caps0 caps1 : list text) (rest : text) :
  match_nodes r s caps0 = Some (caps1, rest) ->
  (exists m, s = m ++ rest) /\ exists cs, caps1 = caps0 ++ cs /\ groups_lang r cs.
Proof.
  revert s caps0. induction r as [|[a|body] r IH]; intros s caps0; simpl.
  - intros [= <- <-]. split; [exists []; reflexivity|].
    exists []. rewrite app_nil_r. auto.
  - intros H. apply match_atom_sound in H as (m1 & s1 & -> & _ & H).
    apply IH in H as [[m2 ->] Hc]. split; [|exact Hc].
    exists (m1 ++ m2). rewrite app_assoc. reflexivity.
  - intros H. apply match_atoms_sound in H as (m1 & s1 & -> & Hb & H).
    rewrite consumed_app in H.
    apply IH in H as [[m2 ->] (cs & -> & Hc)]. split.
    + exists (m1 ++ m2). rewrite app_assoc. reflexivity.
    + exists (m1 :: cs). rewrite <- app_assoc. split; [reflexivity|].
      exists m1, cs. auto.
Qed.

Lemma sub_matcher_sound (r : regex) (t : template) (s ins rest : text) :
  sub_matcher r t s = Some (ins, rest) ->
  (exists cs, groups_lang r cs /\ ins = expand t cs) /\ exists mt, s = mt ++ rest.
Proof.
  unfold sub_matcher, re_match.
  destruct (match_nodes r s []) as [[caps rest']|] eqn:E; [|discriminate].
  intros [= <- <-]. apply match_nodes_sound in E as [Hm (cs & -> & Hc)].
  split; [exists cs; auto | exact Hm].
Qed.

Lemma expand_literal (t : template) (caps : list text) :
  forallb is_lit t = true -> expand t caps = expand t [].
Proof.
  unfold expand. induction t as [|[c|n] t IH]; simpl; [reflexivity | | discriminate].
  intros H. rewrite (IH H). reflexivity.
Qed.

Lemma re_sub_compiled (pattern repl : string) (content : text) (r : regex) :
  re_compile pattern = Some r ->
  re_sub pattern repl content = inr (sub r (parse_template (txt repl)) content).
Proof. intros H. unfold re_sub. rewrite H. reflexivity. Qed.
End MatchSound.

(** ** Rewrites that keep a text free of a search string *)

Section KeepClean.
Context {U : UnicodeDB}.
Variable c0 : char.
Variable p' : text.
Hypothesis fresh : forallb (fun y => negb (char_eqb y c0)) p' = true.

Abbreviation p := (c0 :: p').

Lemma replace_keeps_clean (old new : string) (s : text) :
  resets p (txt new) = true ->
  track p p s <> None -> track p p (replace old new s) <> None.
Proof.
  intros Hnew. apply (rewrites_track c0 p' fresh (eq (txt new))).
  - intros n <- rem Hrem. apply resets_spec; assumption.
  - apply scan_rewrites. intros s0 ins rest. unfold replace_matcher.
    destruct (strip_prefix (txt old) s0) as [r|] eqn:E; [|discriminate].
    intros [= <- <-]. split; [reflexivity|].
    exists (txt old). apply strip_prefix_Some, E.
  - apply start_state.
Qed.

Lemma sub_keeps_clean (r : regex) (t : template) (s : text) :
  (forall cs, groups_lang r cs ->
     forall rem, is_state c0 p' rem -> track p rem (expand t cs) = Some p) ->
  track p p s <> None -> track p p (sub r t s) <> None.
Proof.
  intros Hins.
  apply (rewrites_track c0 p' fresh
           (fun n => exists cs, groups_lang r cs /\ n = expand t cs)).
  - intros n (cs & Hcs & ->). apply Hins, Hcs.
  - apply scan_rewrites. intros s0 ins rest H. apply sub_matcher_sound, H.
  - apply start_state.
Qed.

Lemma literal_template_resets (r : regex) (t : template) :
  forallb is_lit t = true -> resets p (expand t []) = true ->
  forall cs, groups_lang r cs ->
    forall rem, is_state c0 p' rem -> track p rem (expand t cs) = Some p.
Proof.
  intros Hl Hr cs _ rem Hrem. rewrite (expand_literal t cs Hl).
  apply resets_spec; assumption.
Qed.

Lemma first_replace_clean (old new : string) (s : text) :
  txt old = p -> resets p (txt new) = true ->
  track p p (replace old new s) <> None.
Proof.
  intros Hold Hnew. unfold replace, scan_all. rewrite Hold.
  apply (replace_clears c0 p' (txt new) Hnew);
    [lia | apply start_state | left; reflexivity].
Qed.

Lemma re_sub_keeps_clean (pattern repl : string) (r : regex) (s t : text) :
  re_compile pattern = Some r ->
  (forall cs, groups_lang r cs ->
     forall rem, is_state c0 p' rem ->
       track p rem (expand (parse_template (txt repl)) cs) = Some p) ->
  re_sub pattern repl s = inr t ->
  track p p s <> None -> track p p t <> None.
Proof.
  intros Hr Hins. rewrite (re_sub_compiled pattern repl s r Hr).
  intros [= <-]. apply sub_keeps_clean, Hins.
Qed.

(** From the start, characters other than the first one of [p] leave
    the search at the start. *)
Lemma plain_run (m : text) :
  Forall (fun x => x <> c0) m -> track p p m = Some p.
Proof.
  induction 1 as [|x m Hx _ IH]; [reflexivity|].
  cbn [track]. rewrite step_start.
  destruct (char_eqb x c0) eqn:E; [apply char_eqb_eq in E; contradiction|].
  exact IH.
Qed.
End KeepClean.

Lemma class_excludes `{UnicodeDB} (cls : cclass) (c : char) (m : text) :
  in_class cls c = false ->
  Forall (fun x => in_class cls x = true) m -> Forall (fun x => x <> c) m.
Proof.
  intros Hc Hm. eapply Forall_impl; [exact Hm|]. intros x Hx ->. congruence.
Qed.

Lemma atoms_lang_lit `{UnicodeDB} (c : char) (r : list atom) (g : text) :
  atoms_lang (Lit c :: r) g -> exists g', g = c :: g' /\ atoms_lang r g'.
Proof. intros (m1 & m2 & -> & -> & Hr). exists m2. auto. Qed.

Lemma atoms_lang_many `{UnicodeDB} (q : quant) (cls : cclass) (r : list atom) (g : text) :
  atoms_lang (Many q cls :: r) g ->
  exists w g', g = w ++ g' /\ Forall (fun x => in_class cls x = true) w /\ atoms_lang r g'.
Proof.
  intros (m1 & m2 & -> & Hm & Hr). exists m1, m2.
  destruct q; simpl in Hm; [|destruct Hm as [_ Hm]]; auto.
Qed.

(** ** The search for [config.num_persons] *)

Definition np_tail : text := Eval vm_compute in txt "onfig.num_persons".

Abbreviation np := (99%N :: np_tail).

(** The states in which at most [config] has been read. *)
Definition low_states : list text := Eval vm_compute in take 7 (states np).

Lemma np_fresh : forallb (fun y => negb (char_eqb y 99%N)) np_tail = true.
Proof. vm_compute. reflexivity. Qed.

Lemma low_is_state (q : text) : In q low_states -> is_state 99%N np_tail q.
Proof.
  unfold is_state. intros H. vm_compute in H. vm_compute. tauto.
Qed.

Section NumPersons.
Context {U : UnicodeDB}.

Lemma word_step (x : char) (q : text) :
  is_word x = true -> In q low_states -> In (track_step np q x) low_states.
Proof.
  intros Hx Hq. vm_compute in Hq.
  repeat (destruct Hq as [<- | Hq]); [.. | destruct Hq]; cbn [track_step];
    repeat match goal with
           | |- context [char_eqb x ?c] => destruct (char_eqb x c) eqn:?
           end;
    try (vm_compute; tauto);
    match goal with
    | E : char_eqb x _ = true |- _ =>
        apply char_eqb_eq in E; subst x; vm_compute in Hx; discriminate
    end.
Qed.

Lemma word_run (w : text) :
  Forall (fun x => in_class (single CWord) x = true) w ->
  forall q, In q low_states ->
    exists q', track np q w = Some q' /\ In q' low_states.
Proof.
  induction 1 as [|x w Hx _ IH]; intros q Hq; cbn [track]; [eauto|].
  assert (Hw : is_word x = true).
  { unfold in_class in Hx. simpl in Hx. rewrite orb_false_r in Hx. exact Hx. }
  pose proof (word_step x q Hw Hq) as Hs.
  destruct (track_step np q x) as [|y r];
    [vm_compute in Hs; repeat (destruct Hs as [Hs|Hs]; [discriminate|]); destruct Hs|].
  apply IH, Hs.
Qed.
End NumPersons.

Ltac eval_txt :=
  repeat match goal with
         | |- context [txt ?s] =>
             let v := eval vm_compute in (txt s) in change (txt s) with v
         end.

Section FixTests.
Context {U : UnicodeDB}.

(** Whatever the groups of the [record_transaction] pattern hold, the
    replacement text brings the search back to its start: a dot in it
    is never followed by [num_persons]. *)
Lemma record_transaction_resets (r : regex) (cs : list text) (rem : text) :
  re_compile record_transaction_pattern = Some r ->
  groups_lang r cs -> is_state 99%N np_tail rem ->
  track np rem (expand (parse_template (txt record_transaction_repl)) cs) = Some np.
Proof.
  intros Hr Hg Hrem. vm_compute in Hr. injection Hr as <-.
  cbn [groups_lang] in Hg.
  destruct Hg as (g1 & c1 & -> & H1 & g2 & c2 & -> & H2 & g3 & c3 & -> & H3
                  & g4 & c4 & -> & H4 & g5 & c5 & -> & H5 & ->).
  apply atoms_lang_many in H1 as (d1 & e1 & -> & Hd1 & ->).
  repeat (apply atoms_lang_lit in H2 as (? & -> & H2)).
  apply atoms_lang_many in H2 as (w2 & e2 & -> & Hw2 & ->).
  apply atoms_lang_many in H3 as (w3 & e3 & -> & Hw3 & H3).
  repeat (apply atoms_lang_lit in H3 as (? & -> & H3)). cbn in H3. subst.
  apply atoms_lang_many in H4 as (d4 & e4 & -> & Hd4 & ->).
  clear H5. rewrite !app_nil_r.
  assert (E : forall a b c d : text,
    expand (parse_template (txt record_transaction_repl))
      [a; txt "TransactionType::" ++ b; c ++ txt ".id"; d; g5] =
    txt "person.record_transaction(" ++ a ++ txt ", " ++ c
      ++ txt ".id.id.clone(), TransactionType::" ++ b ++ txt ", " ++ d ++ txt ", None)").
  { intros a b c d.
    let t := eval vm_compute in (parse_template (txt record_transaction_repl)) in
    change (parse_template (txt record_transaction_repl)) with t.
    eval_txt. unfold expand. cbn [map expand_item nth concat app].
    rewrite <- !app_assoc. reflexivity. }
  refine (eq_trans (f_equal (track np rem) (E d1 w2 w3 d4)) _). clear E.
  assert (Hlow : In np low_states) by (left; reflexivity).
  assert (Hres : forall l q, resets np l = true -> is_state 99%N np_tail q ->
                             track np q l = Some np).
  { intros l q Hl Hq. apply (resets_spec 99%N np_tail l q Hl Hq). }
  assert (Hplain : forall cls m, in_class cls 99%N = false ->
            Forall (fun x => in_class cls x = true) m -> track np np m = Some np).
  { intros cls m Hc Hm. apply plain_run, (class_excludes cls), Hm. exact Hc. }
  pose proof (start_state 99%N np_tail) as Hstart.
  rewrite track_app, (Hres _ rem); [|vm_compute; reflexivity | exact Hrem].
  rewrite track_app, (fun Hc => Hplain _ d1 Hc Hd1); [|vm_compute; reflexivity].
  rewrite track_app, (Hres _ np); [|vm_compute; reflexivity | exact Hstart].
  rewrite track_app. destruct (word_run w3 Hw3 np Hlow) as (q3 & -> & Hq3).
  rewrite track_app, (Hres _ q3); [|vm_compute; reflexivity | apply low_is_state, Hq3].
  rewrite track_app. destruct (word_run w2 Hw2 np Hlow) as (q2 & -> & Hq2).
  rewrite track_app, (Hres _ q2); [|vm_compute; reflexivity | apply low_is_state, Hq2].
  rewrite track_app, (fun Hc => Hplain _ d4 Hc Hd4); [|vm_compute; reflexivity].
  apply Hres; [vm_compute; reflexivity | exact Hstart].
Qed.

Ltac literal_stage :=
  match goal with
  | E : re_sub ?pat ?repl ?s = inr ?t |- track np np ?t <> None =>
      let r := eval vm_compute in (re_compile pat) in
      lazymatch r with
      | Some ?r' =>
          apply (re_sub_keeps_clean 99%N np_tail np_fresh pat repl r' s t);
          [vm_compute; reflexivity
          |apply literal_template_resets; vm_compute; reflexivity
          |exact E
          |clear E]
      end
  end.

Ltac replace_stage :=
  apply (replace_keeps_clean 99%N np_tail np_fresh); [vm_compute; reflexivity|].

Lemma fix_tests_rewrite_clean (content t : text) :
  fix_tests_rewrite content = inr t ->
  contains (txt "config.num_persons") t = false.
Proof.
  intros H. unfold fix_tests_rewrite in H. cbv zeta in H.
  repeat match type of H with
         | context [re_sub ?pat ?repl ?s] =>
             let t := fresh "t" in
             let E := fresh "E" in
             destruct (re_sub pat repl s) as [?|t] eqn:E; [discriminate H|];
             cbn [mbind exn_bind] in H
         end.
  injection H as <-.
  match goal with
  | |- contains _ ?out = false =>
      enough (Hclean : track np np out <> None);
      [destruct (track np np out) as [q|] eqn:Eq; [|contradiction];
       apply (track_contains 99%N np_tail np_fresh out np q (start_state _ _) Eq)|]
  end.
  repeat literal_stage.
  match goal with
  | E : re_sub record_transaction_pattern _ ?s = inr ?t |- _ =>
      let r := eval vm_compute in (re_compile record_transaction_pattern) in
      lazymatch r with
      | Some ?r' =>
          apply (re_sub_keeps_clean 99%N np_tail np_fresh
                   record_transaction_pattern record_transaction_repl r' s t);
          [vm_compute; reflexivity
          |intros cs Hcs rem Hrem; apply (record_transaction_resets r');
           [vm_compute; reflexivity | exact Hcs | exact Hrem]
          |exact E
          |clear E]
      end
  end.
  do 9 replace_stage.
  apply (first_replace_clean 99%N np_tail);
    [vm_compute; reflexivity | vm_compute; reflexivity].
Qed.
End FixTests.

(** ** The scripts never raise on a text they could read *)

Lemma re_sub_total `{UnicodeDB} (pattern repl : string) (content : text) :
  is_Some (re_compile pattern) -> exists t, re_sub pattern repl content = inr t.
Proof. intros [r Hr]. unfold re_sub. rewrite Hr. eexists. reflexivity. Qed.

Ltac run_re_sub :=
  match goal with
  | |- context [re_sub ?pat ?repl ?s] =>
      let Hc := fresh "Hc" in
      assert (Hc : is_Some (re_compile pat)) by (vm_compute; eexists; reflexivity);
      let t := fresh "t" in
      destruct (re_sub_total pat repl s Hc) as [t ->]; clear Hc;
      cbn [mbind exn_bind]
  end.

Section ScriptFacts.
Context {U : UnicodeDB}.

Lemma fix_tests_rewrite_total (content : text) :
  exists t, fix_tests_rewrite content = inr t.
Proof. unfold fix_tests_rewrite. repeat run_re_sub. eexists. reflexivity. Qed.

Lemma fix_final_rewrite_total (content : text) :
  exists t, fix_final_rewrite content = inr t.
Proof.
  unfold fix_final_rewrite, add_compress_argument. repeat run_re_sub.
  eexists. reflexivity.
Qed.

Lemma fix_remaining_rewrite_total (content : text) :
  exists t, fix_remaining_rewrite content = inr t.
Proof. unfold fix_remaining_rewrite. repeat run_re_sub. eexists. reflexivity. Qed.

Lemma simplify_tests_rewrite_total (content : text) :
  exists t, simplify_tests_rewrite content = inr t.
Proof. unfold simplify_tests_rewrite. repeat run_re_sub. eexists. reflexivity. Qed.

Lemma read_rewrite_write (rw : text -> exn + text) (msg : string) (w : world) (c t : text) :
  files w !! tests_rs = Some c ->
  rw (universal_newlines c) = inr t ->
  (content ← read_file tests_rs;
   content ← lift (rw content);
   write_file tests_rs content;;
   print msg) w = (inr tt, patched w t msg).
Proof.
  intros Hc Ht. unfold mbind, io_bind, bind, read_file, lift. rewrite Hc, Ht.
  reflexivity.
Qed.

Lemma fix_tests_runs (w : world) (c t : text) :
  files w !! tests_rs = Some c ->
  fix_tests_rewrite (universal_newlines c) = inr t ->
  fix_tests w = (inr tt, patched w t "Fixed tests file").
Proof. exact (read_rewrite_write fix_tests_rewrite _ w c t). Qed.

Lemma fix_final_runs (w : world) (c t : text) :
  files w !! tests_rs = Some c ->
  fix_final_rewrite (universal_newlines c) = inr t ->
  fix_final w = (inr tt, patched w t "Fixed final push tests").
Proof. exact (read_rewrite_write fix_final_rewrite _ w c t). Qed.

Lemma fix_remaining_runs (w : world) (c t : text) :
  files w !! tests_rs = Some c ->
  fix_remaining_rewrite (universal_newlines c) = inr t ->
  fix_remaining w = (inr tt, patched w t "Fixed remaining issues").
Proof. exact (read_rewrite_write fix_remaining_rewrite _ w c t). Qed.

Lemma simplify_tests_runs (w : world) (c t : text) :
  files w !! tests_rs = Some c ->
  simplify_tests_rewrite (universal_newlines c) = inr t ->
  simplify_tests w = (inr tt, patched w t "Relaxed test assertions").
Proof. exact (read_rewrite_write simplify_tests_rewrite _ w c t). Qed.
End ScriptFacts.

(** ** The claims about the scripts *)

(** C2.  Each patch script is a pure text substitution: when the test
    file holds [content], the script ends normally, the file then holds
    a text [out] that is the same whatever else the world holds, every
    other file is untouched and one line is printed.  Two runs on the
    same input text give the same output text. *)
Theorem patch_scripts_pure_substitution `{UnicodeDB} (w1 w2 : world) (content : text) :
  files w1 !! tests_rs = Some content ->
  files w2 !! tests_rs = Some content ->
  Forall (fun sm : io unit * string =>
            exists out : text,
              sm.1 w1 = (inr tt, patched w1 out sm.2) /\
              sm.1 w2 = (inr tt, patched w2 out sm.2))
    [(fix_tests, "Fixed tests file");
     (fix_final, "Fixed final push tests");
     (simplify_tests, "Relaxed test assertions");
     (fix_remaining, "Fixed remaining issues")].
Proof.
  intros H1 H2. rewrite !Forall_cons, Forall_nil.
  refine (conj _ (conj _ (conj _ (conj _ I)))); cbn [fst snd].
  - destruct (fix_tests_rewrite_total (universal_newlines content)) as [t Ht].
    exists t. split; apply (fix_tests_runs _ content); assumption.
  - destruct (fix_final_rewrite_total (universal_newlines content)) as [t Ht].
    exists t. split; apply (fix_final_runs _ content); assumption.
  - destruct (simplify_tests_rewrite_total (universal_newlines content)) as [t Ht].
    exists t. split; apply (simplify_tests_runs _ content); assumption.
  - destruct (fix_remaining_rewrite_total (universal_newlines content)) as [t Ht].
    exists t. split; apply (fix_remaining_runs _ content); assumption.
Qed.

Definition world_a : world :=
  {| files := {[ tests_rs := txt "assert!(result.total_trades > 0);" ]};
     stdout := [] |}.

Definition world_b : world :=
  {| files := {[ tests_rs := txt "assert!(result.total_trades > 0);";
                 "Cargo.toml" := txt "[package]" ]};
     stdout := ["cargo test"] |}.

Lemma patch_scripts_pure_substitution_witness :
  Forall (fun sm : io unit * string =>
            exists out : text,
              sm.1 world_a = (inr tt, patched world_a out sm.2) /\
              sm.1 world_b = (inr tt, patched world_b out sm.2))
    [(@fix_tests latin1_only, "Fixed tests file");
     (@fix_final latin1_only, "Fixed final push tests");
     (@simplify_tests latin1_only, "Relaxed test assertions");
     (@fix_remaining latin1_only, "Fixed remaining issues")].
Proof.
  apply (@patch_scripts_pure_substitution latin1_only world_a world_b
           (txt "assert!(result.total_trades > 0);")).
  - vm_compute. reflexivity.
  - vm_compute. reflexivity.
Defined.

(** C8.  The [save_to_file] rewrite of fix_final.py is not idempotent:
    on [result.save_to_file(p).unwrap();] a second application appends
    a second [, false]. *)
Theorem add_compress_argument_not_idempotent `{UnicodeDB} :
  exists once twice : text,
    add_compress_argument (txt "result.save_to_file(p).unwrap();") = inr once /\
    add_compress_argument once = inr twice /\
    once = txt "result.save_to_file(p, false).unwrap();" /\
    twice = txt "result.save_to_file(p, false, false).unwrap();" /\
    twice <> once.
Proof.
  exists (txt "result.save_to_file(p, false).unwrap();"),
         (txt "result.save_to_file(p, false, false).unwrap();").
  repeat split; try (vm_compute; reflexivity).
  vm_compute. discriminate.
Qed.

(** C9.  The Gini field rename of fix_remaining.py is idempotent: its
    output holds no occurrence of the search string, so a second
    application changes nothing. *)
Theorem rename_gini_idempotent (content : text) :
  contains (txt "result.gini_coefficient") (rename_gini content) = false /\
  rename_gini (rename_gini content) = rename_gini content.
Proof.
  assert (Hc : contains (txt "result.gini_coefficient") (rename_gini content) = false).
  { apply (replace_clears_all 114%N (txt "esult.gini_coefficient")).
    - vm_compute. reflexivity.
    - vm_compute. reflexivity. }
  split; [exact Hc|].
  unfold rename_gini at 1. unfold replace, scan_all. apply replace_absent, Hc.
Qed.

(** C10.  Whatever the test file holds, fix_tests.py ends normally and
    the text it writes back has no occurrence of [config.num_persons]:
    the first replacement removes them all and no later replacement
    brings one back. *)
Theorem fix_tests_removes_num_persons `{UnicodeDB} (w : world) (content : text) :
  files w !! tests_rs = Some content ->
  exists out : text,
    fix_tests w = (inr tt, patched w out "Fixed tests file") /\
    contains (txt "config.num_persons") out = false.
Proof.
  intros Hc.
  destruct (fix_tests_rewrite_total (universal_newlines content)) as [t Ht].
  exists t. split.
  - apply (fix_tests_runs w content t Hc Ht).
  - apply (fix_tests_rewrite_clean _ t Ht).
Qed.

Definition world_c : world :=
  {| files := {[ tests_rs :=
       txt "let n = config.num_persons; assert_eq!(person.total_sales_value, 10.5);" ]};
     stdout := [] |}.

Lemma fix_tests_removes_num_persons_witness :
  exists out : text,
    @fix_tests latin1_only world_c = (inr tt, patched world_c out "Fixed tests file") /\
    contains (txt "config.num_persons") out = false.
Proof.
  apply (@fix_tests_removes_num_persons latin1_only world_c
           (txt "let n = config.num_persons; assert_eq!(person.total_sales_value, 10.5);")).
  vm_compute. reflexivity.
Defined.

(** ** The engine model *)

Section EngineFacts.
Import Engine.
Context {P : Policy}.
Local Open Scope Q_scope.















Lemma run_completes (n : nat) (e e' : Engine) (r : SimulationResult) :
  run e n = inr (r, e') -> state e' = Completed.
Proof.
  unfold run.
  destruct (state e); try discriminate;
    (destruct (steps n e) as [err|e1]; [discriminate|]);
    intros [= _ <-]; reflexivity.
Qed.


(** C6.  [run] on an engine in the [Completed] state fails with
    [InvalidState]: it neither runs again nor succeeds. *)
Theorem run_on_completed_fails (e : Engine) (n : nat) :
  state e = Completed -> run e n = inl InvalidState.
Proof. intros H. unfold run. rewrite H. reflexivity. Qed.

(** C7.  Construction validates the configuration: with a fee or a tax
    rate outside [0,1], or a price floor above the ceiling, [new] fails
    with [ConfigError] and builds no engine. *)
Theorem new_rejects_invalid_config (cfg : EngineConfig) :
  invalid_config cfg -> new cfg = inl ConfigError.
Proof.
  intros H. unfold new.
  destruct (valid_config cfg) eqn:Hv; [exfalso|reflexivity].
  unfold valid_config, in_unit in Hv. rewrite !andb_true_iff in Hv.
  destruct Hv as [[[Hf0 Hf1] [Ht0 Ht1]] Hp].
  apply Qle_bool_iff in Hf0, Hf1, Ht0, Ht1, Hp.
  unfold invalid_config in H. destruct H as [H|[H|[H|[H|H]]]]; lra.
Qed.
End EngineFacts.



Lemma run_on_completed_fails_witness :
  exists (e e' : Engine.Engine) (r : Engine.SimulationResult),
    @Engine.new Engine.sample_policy Engine.sample_config = inr e /\
    @Engine.run Engine.sample_policy e 3 = inr (r, e') /\
    @Engine.run Engine.sample_policy e' 1 = inl Engine.InvalidState.
Proof.
  destruct (@Engine.new Engine.sample_policy Engine.sample_config) as [err|e] eqn:Hn;
    [vm_compute in Hn; discriminate|].
  destruct (@Engine.run Engine.sample_policy e 3) as [err|[r e']] eqn:Hr.
  { exfalso. vm_compute in Hn. injection Hn as <-. vm_compute in Hr. discriminate. }
  exists e, e', r. split; [reflexivity|]. split; [exact Hr|].
  apply (@run_on_completed_fails Engine.sample_policy).
  apply (@run_completes Engine.sample_policy 3 e e' r Hr).
Defined.

Lemma new_rejects_invalid_config_witness :
  @Engine.new Engine.sample_policy Engine.overcharging_config = inl Engine.ConfigError.
Proof.
  apply (@new_rejects_invalid_config Engine.sample_policy).
  right. left. vm_compute. reflexivity.
Defined.

(* ===================================================================== *)
(** * Part IV.  Further properties of the scripts                         *)
(* ===================================================================== *)

(** ** Following any search string

    For a search string [p] in general, the state of a left-to-right
    search is the longest end of the text read so far that is a
    beginning of [p]. *)

(** [u] is a beginning of [p]. *)
Definition starts (p u : text) : bool :=
  match strip_prefix u p with
  | Some _ => true
  | None => false
  end.

(** The longest end of [u] that is a beginning of [p]. *)
Fixpoint longest_start (p u : text) : text :=
  if starts p u then u
  else match u with
       | [] => []
       | _ :: u' => longest_start p u'
       end.

Definition kmp_step (p m : text) (x : char) : text := longest_start p (m ++ [x]).

(** [None] says an occurrence of [p] has been read in full. *)
Fixpoint kmp (p m s : text) : option text :=
  match s with
  | [] => Some m
  | x :: s' =>
      let m' := kmp_step p m x in
      if text_eqb m' p then None else kmp p m' s'
  end.

(** The beginnings of [p], and those shorter than [p]. *)
Fixpoint inits (p : text) : list text :=
  [] :: match p with
        | [] => []
        | x :: p' => map (cons x) (inits p')
        end.

Definition proper_starts (p : text) : list text :=
  List.filter (fun m => negb (text_eqb m p)) (inits p).

(** [Edits Ins s t]: [t] is [s] with some disjoint pieces [m] replaced,
    left to right, by texts [n] such that [Ins m n]. *)
Inductive Edits (Ins : text -> text -> Prop) : text -> text -> Prop :=
| ed_nil : Edits Ins [] []
| ed_copy x s t : Edits Ins s t -> Edits Ins (x :: s) (x :: t)
| ed_subst m n s t : Ins m n -> Edits Ins s t -> Edits Ins (m ++ s) (n ++ t).

(** Reading a replacement template with the search in any of the states
    [S]: a literal character moves every state, and must complete no
    occurrence; a group reference must find the search at its start, and
    leaves it anywhere; at the end the search must be at its start. *)
Fixpoint template_safe (p : text) (t : template) (S : list text) : bool :=
  match t with
  | [] => forallb (fun m => text_eqb m []) S
  | TLit c :: t' =>
      let S' := map (fun m => kmp_step p m c) S in
      (negb (existsb (fun m => text_eqb m p) S') && template_safe p t' S')%bool
  | TRef _ :: t' =>
      (forallb (fun m => text_eqb m []) S && template_safe p t' (proper_starts p))%bool
  end.

(** A template that cannot complete or prepare an occurrence of [p]. *)
Definition safe_template (p : text) (t : template) : bool :=
  template_safe p t (proper_starts p).

(** The same for the replacement text of [str.replace]. *)
Definition safe_text (p new : text) : bool := safe_template p (map TLit new).

Definition is_start (p m : text) : Prop := m `prefix_of` p /\ m <> p.

Definition substring (m g : text) : Prop := exists a b, m = a ++ g ++ b.

(** The literal characters a pattern starts with: a match starts with
    them. *)
Fixpoint lit_prefix (r : regex) : text :=
  match r with
  | Atom (Lit c) :: r' => c :: lit_prefix r'
  | _ => []
  end.

(** The text of a pattern that is literal throughout. *)
Fixpoint literal_of (r : regex) : option text :=
  match r with
  | [] => Some []
  | Atom (Lit c) :: r' =>
      match literal_of r' with
      | Some l => Some (c :: l)
      | None => None
      end
  | _ => None
  end.

Definition literal_pattern (pattern : string) : option text :=
  match re_compile pattern with
  | Some r => literal_of r
  | None => None
  end.

Definition pattern_prefix (pattern : string) : option text :=
  match re_compile pattern with
  | Some r => Some (lit_prefix r)
  | None => None
  end.

(** A carriage return. *)
Definition cr : text := [13%N].

Lemma text_eqb_eq (a b : text) : text_eqb a b = true <-> a = b.
Proof. unfold text_eqb. apply bool_decide_eq_true. Qed.

Lemma text_eqb_neq (a b : text) : text_eqb a b = false <-> a <> b.
Proof. unfold text_eqb. apply bool_decide_eq_false. Qed.

Lemma starts_prefix (p u : text) : starts p u = true <-> u `prefix_of` p.
Proof.
  unfold starts. split.
  - destruct (strip_prefix u p) as [rest|] eqn:E; [|discriminate].
    intros _. exists rest. apply strip_prefix_Some, E.
  - intros [k ->]. rewrite strip_prefix_app. reflexivity.
Qed.

Lemma longest_start_spec (p u : text) :
  longest_start p u `suffix_of` u /\
  longest_start p u `prefix_of` p /\
  forall t, t `suffix_of` u -> t `prefix_of` p -> t `suffix_of` longest_start p u.
Proof.
  induction u as [|x u IH].
  - simpl. destruct (starts p []) eqn:E; repeat split; auto using prefix_nil.
  - cbn [longest_start]. destruct (starts p (x :: u)) eqn:E.
    + apply starts_prefix in E. repeat split; auto.
    + destruct IH as (Hs & Hp & Hmax). repeat split.
      * apply suffix_cons_r, Hs.
      * exact Hp.
      * intros t Ht Htp. apply Hmax; [|exact Htp].
        destruct t as [|y t]; [apply suffix_nil|].
        apply suffix_cons_inv in Ht as [Ht | Ht]; [|exact Ht].
        rewrite Ht in Htp. apply starts_prefix in Htp. congruence.
Qed.

Lemma longest_start_suffix (p u : text) : longest_start p u `suffix_of` u.
Proof. apply longest_start_spec. Qed.

Lemma longest_start_prefix (p u : text) : longest_start p u `prefix_of` p.
Proof. apply longest_start_spec. Qed.

Lemma longest_start_max (p u t : text) :
  t `suffix_of` u -> t `prefix_of` p -> t `suffix_of` longest_start p u.
Proof. apply longest_start_spec. Qed.

Lemma prefix_suffix_eq (a b p : text) :
  a `prefix_of` p -> b `prefix_of` p -> a `suffix_of` b -> b `suffix_of` a -> a = b.
Proof.
  intros _ _ [k1 H1] [k2 H2]. apply (f_equal length) in H1 as L1.
  apply (f_equal length) in H2 as L2. rewrite length_app in L1, L2.
  destruct k1; [symmetry; exact H1|]. simpl in L1. lia.
Qed.

Lemma prefix_suffix_same (a p : text) : a `prefix_of` p -> p `suffix_of` a -> a = p.
Proof.
  intros [k Hk] [k' Hk']. apply (f_equal length) in Hk as L, Hk' as L'.
  rewrite length_app in L, L'. destruct k'; [exact Hk'|]. simpl in L'. lia.
Qed.

Lemma longest_start_mono (p u w : text) :
  u `suffix_of` w -> longest_start p u `suffix_of` longest_start p w.
Proof.
  intros H. apply longest_start_max; [|apply longest_start_prefix].
  etransitivity; [apply longest_start_suffix | exact H].
Qed.

(** The longest start of a text depends on its earlier part only
    through that part's longest start. *)
Lemma longest_start_snoc (p w : text) (x : char) :
  longest_start p (longest_start p w ++ [x]) = longest_start p (w ++ [x]).
Proof.
  apply (prefix_suffix_eq _ _ p); try apply longest_start_prefix.
  - apply longest_start_mono, suffix_app, longest_start_suffix.
  - pose proof (longest_start_suffix p (w ++ [x])) as Hs.
    pose proof (longest_start_prefix p (w ++ [x])) as Hp.
    destruct (longest_start p (w ++ [x])) as [|y t] eqn:E using rev_ind;
      [apply suffix_nil|].
    clear IHt. apply suffix_snoc_inv_1 in Hs as Hx. subst y.
    apply suffix_snoc_inv_2 in Hs.
    apply longest_start_max; [|exact Hp].
    apply suffix_app, longest_start_max; [exact Hs|].
    etransitivity; [apply prefix_app_r; reflexivity | exact Hp].
Qed.

Lemma kmp_app (p m a b : text) :
  kmp p m (a ++ b) =
  match kmp p m a with
  | Some m' => kmp p m' b
  | None => None
  end.
Proof.
  revert m. induction a as [|x a IH]; intros m; simpl; [reflexivity|].
  destruct (text_eqb (kmp_step p m x) p); [reflexivity | apply IH].
Qed.

Lemma kmp_longest (p s m m1 : text) :
  kmp p m s = Some m1 -> longest_start p m = m -> m1 = longest_start p (m ++ s).
Proof.
  revert m. induction s as [|x s IH]; intros m; simpl.
  - intros [= <-] Hm. rewrite app_nil_r. symmetry. exact Hm.
  - destruct (text_eqb (kmp_step p m x) p); [discriminate|].
    intros H Hm. apply IH in H.
    + rewrite H. unfold kmp_step. clear H IH.
      replace (m ++ x :: s) with ((m ++ [x]) ++ s) by (rewrite <- app_assoc; reflexivity).
      generalize (m ++ [x]). intros w. induction s as [|y s IH] using rev_ind.
      * rewrite !app_nil_r.
        apply (prefix_suffix_eq _ _ p); try apply longest_start_prefix.
        -- apply longest_start_mono, longest_start_suffix.
        -- apply longest_start_max; [reflexivity | apply longest_start_prefix].
      * rewrite !app_assoc, <- (longest_start_snoc p (longest_start p w ++ s)),
          <- (longest_start_snoc p (w ++ s)), IH. reflexivity.
    + unfold kmp_step.
      apply (prefix_suffix_eq _ _ p); try apply longest_start_prefix.
      * apply longest_start_suffix.
      * apply longest_start_max; [reflexivity | apply longest_start_prefix].
Qed.

Lemma start_fix (p m : text) : m `prefix_of` p -> longest_start p m = m.
Proof.
  intros H. apply starts_prefix in H. destruct m as [|y m]; [reflexivity|].
  cbn [longest_start]. rewrite H. reflexivity.
Qed.

Lemma kmp_step_prefix (p m : text) (x : char) : kmp_step p m x `prefix_of` p.
Proof. apply longest_start_prefix. Qed.

Lemma kmp_state (p s m m1 : text) :
  is_start p m -> kmp p m s = Some m1 -> is_start p m1.
Proof.
  revert m. induction s as [|x s IH]; intros m Hm; simpl.
  - intros [= <-]. exact Hm.
  - destruct (text_eqb (kmp_step p m x) p) eqn:E; [discriminate|].
    apply IH. split; [apply kmp_step_prefix | apply text_eqb_neq, E].
Qed.

Lemma start_nil (p m : text) : is_start p m -> is_start p [].
Proof.
  intros [Hpre Hne]. split; [apply prefix_nil|]. intros <-.
  apply prefix_nil_inv in Hpre. contradiction.
Qed.

(** Starting afresh never finds an occurrence a search already under
    way does not find. *)
Lemma kmp_mono (p s m0 m m1 : text) :
  m0 `suffix_of` m -> m0 `prefix_of` p -> m `prefix_of` p ->
  kmp p m s = Some m1 ->
  exists m0', kmp p m0 s = Some m0' /\ m0' `suffix_of` m1.
Proof.
  revert m0 m. induction s as [|x s IH]; intros m0 m Hs H0 Hm; simpl.
  - intros [= <-]. exists m0. auto.
  - destruct (text_eqb (kmp_step p m x) p) eqn:E; [discriminate|].
    apply text_eqb_neq in E.
    assert (Hsuf : kmp_step p m0 x `suffix_of` kmp_step p m x)
      by (apply longest_start_mono, suffix_app, Hs).
    destruct (text_eqb (kmp_step p m0 x) p) eqn:E0.
    + apply text_eqb_eq in E0. rewrite E0 in Hsuf. destruct E.
      apply prefix_suffix_same; [apply kmp_step_prefix | exact Hsuf].
    + apply IH; [exact Hsuf | apply kmp_step_prefix | apply kmp_step_prefix].
Qed.

Lemma kmp_from_start (p s m : text) :
  is_start p m -> kmp p m s <> None -> kmp p [] s <> None.
Proof.
  intros [Hm _] H. destruct (kmp p m s) as [m1|] eqn:E; [|contradiction].
  destruct (kmp_mono p s [] m m1) as (m0 & -> & _);
    [apply suffix_nil | apply prefix_nil | exact Hm | exact E | discriminate].
Qed.

(** A search that ends without having found anything: the text holds no
    occurrence. *)
Lemma kmp_contains (p s m m1 : text) :
  is_start p m -> kmp p m s = Some m1 -> contains p s = false.
Proof.
  intros Hm Hk. destruct (contains p s) eqn:E; [|reflexivity].
  apply contains_occurs in E as (l & r & ->).
  rewrite app_assoc, kmp_app in Hk.
  destruct (kmp p m (l ++ p)) as [q|] eqn:Eq; [|discriminate]. clear Hk.
  pose proof (kmp_state p _ m q Hm Eq) as [Hq Hne].
  apply kmp_longest in Eq; [|apply start_fix, Hm].
  destruct Hne. apply prefix_suffix_same; [exact Hq|].
  rewrite Eq. apply longest_start_max; [|reflexivity].
  rewrite app_assoc. apply suffix_app_r. reflexivity.
Qed.

Lemma kmp_substring (p m g : text) :
  is_start p [] -> substring m g -> kmp p [] m <> None -> kmp p [] g <> None.
Proof.
  intros H0 (a & b & ->) H. rewrite kmp_app in H.
  destruct (kmp p [] a) as [q|] eqn:Ea; [|contradiction].
  rewrite kmp_app in H. destruct (kmp p q g) as [q'|] eqn:Eg; [|contradiction].
  apply (kmp_from_start p g q); [apply (kmp_state p a [] q H0 Ea)|].
  rewrite Eg. discriminate.
Qed.

Lemma inits_spec (p m : text) : In m (inits p) <-> m `prefix_of` p.
Proof.
  revert m. induction p as [|x p IH]; intros m; simpl.
  - split; [intros [<-|[]]; reflexivity | intros H; left; symmetry; apply prefix_nil_inv, H].
  - rewrite in_map_iff. split.
    + intros [<- | (m' & <- & H)]; [apply prefix_nil|].
      apply prefix_cons, IH, H.
    + destruct m as [|y m]; [left; reflexivity|].
      intros H. right. exists m.
      apply prefix_cons_inv_1 in H as Hy. apply prefix_cons_inv_2 in H. subst y.
      split; [reflexivity | apply IH, H].
Qed.

Lemma proper_starts_spec (p m : text) : In m (proper_starts p) <-> is_start p m.
Proof.
  unfold proper_starts, is_start. rewrite filter_In, inits_spec, negb_true_iff, text_eqb_neq.
  reflexivity.
Qed.

Lemma scan_edits (Ins : text -> text -> Prop) (mt : matcher) :
  (forall s ins rest, mt s = Some (ins, rest) -> exists m, s = m ++ rest /\ Ins m ins) ->
  forall fuel s, Edits Ins s (scan mt fuel s).
Proof.
  intros Hm.
  assert (Hid : forall s, Edits Ins s s).
  { induction s; constructor; assumption. }
  assert (Hcopy : forall go s, (forall s', Edits Ins s' (go s')) -> Edits Ins s (copy_one go s)).
  { intros go [|x s] H; simpl; constructor. apply H. }
  induction fuel as [|fuel IH]; intros s; simpl; [apply Hid|].
  destruct (mt s) as [[ins rest]|] eqn:E.
  - destruct (Hm _ _ _ E) as (m & -> & Hins).
    destruct (length rest <? length (m ++ rest)) eqn:El.
    + apply ed_subst; [exact Hins | apply IH].
    + apply Nat.ltb_ge in El. rewrite length_app in El.
      destruct m; [|simpl in El; lia].
      apply (ed_subst Ins [] ins); [exact Hins | apply Hcopy, IH].
  - apply Hcopy, IH.
Qed.

Lemma start_of_nonempty (p : text) : p <> [] -> is_start p [].
Proof. intros H. split; [apply prefix_nil | congruence]. Qed.

(** Replacing pieces of an occurrence-free text by texts that bring the
    search back to its start leaves it occurrence-free. *)
Lemma edits_kmp (p : text) (Ins : text -> text -> Prop) (s t : text) :
  (forall m n, Ins m n -> kmp p [] m <> None ->
     forall st, is_start p st -> kmp p st n = Some []) ->
  Edits Ins s t ->
  forall st, is_start p st -> kmp p st s <> None -> kmp p st t <> None.
Proof.
  intros Hins Hed. induction Hed as [|x s t _ IH|m n s t Hn _ IH]; intros st Hst; simpl.
  - discriminate.
  - destruct (text_eqb (kmp_step p st x) p) eqn:E; [intros []; reflexivity|].
    apply IH. split; [apply kmp_step_prefix | apply text_eqb_neq, E].
  - rewrite !kmp_app.
    destruct (kmp p st m) as [q|] eqn:Em; [|intros []; reflexivity].
    intros Hq. rewrite (Hins m n Hn); [| |exact Hst].
    + apply IH; [apply (start_nil p st Hst)|].
      apply (kmp_from_start p s q); [apply (kmp_state p m st q Hst Em) | exact Hq].
    + apply (kmp_from_start p m st Hst). rewrite Em. discriminate.
Qed.

Lemma expand_cons (i : titem) (t : template) (caps : list text) :
  expand (i :: t) caps = expand_item caps i ++ expand t caps.
Proof. reflexivity. Qed.

Lemma expand_lits (l : text) (caps : list text) : expand (map TLit l) caps = l.
Proof.
  induction l as [|c l IH]; [reflexivity|].
  cbn [map]. rewrite expand_cons, IH. reflexivity.
Qed.

Lemma expand_app (t1 t2 : template) (caps : list text) :
  expand (t1 ++ t2) caps = expand t1 caps ++ expand t2 caps.
Proof. unfold expand. rewrite map_app, concat_app. reflexivity. Qed.

Lemma template_safe_spec (p : text) (caps : list text) (t : template) :
  is_start p [] ->
  Forall (fun g => kmp p [] g <> None) caps ->
  forall S, template_safe p t S = true ->
    forall st, In st S -> kmp p st (expand t caps) = Some [].
Proof.
  intros H0 Hcaps. induction t as [|[c|n] t IH]; intros S; cbn [template_safe].
  - rewrite forallb_forall. intros HS st Hst. apply HS, text_eqb_eq in Hst as ->.
    reflexivity.
  - rewrite andb_true_iff, negb_true_iff. intros [Hex Ht] st Hst.
    rewrite expand_cons. cbn [expand_item app kmp].
    assert (Hin : In (kmp_step p st c) (map (fun m => kmp_step p m c) S))
      by exact (in_map (fun m => kmp_step p m c) S st Hst).
    destruct (text_eqb (kmp_step p st c) p) eqn:E.
    + assert (existsb (fun m => text_eqb m p) (map (fun m => kmp_step p m c) S) = true)
        by (apply existsb_exists; eauto).
      congruence.
    + apply (IH _ Ht), Hin.
  - rewrite andb_true_iff, forallb_forall. intros [HS Ht] st Hst.
    apply HS, text_eqb_eq in Hst as ->. rewrite expand_cons, kmp_app.
    assert (Hg : kmp p [] (expand_item caps (TRef n)) <> None).
    { destruct n as [|i]; cbn [expand_item]; [discriminate|].
      destruct (nth_in_or_default i caps []) as [Hin | ->]; [|discriminate].
      rewrite Forall_forall in Hcaps. apply Hcaps, list_elem_of_In, Hin. }
    destruct (kmp p [] (expand_item caps (TRef n))) as [q|] eqn:Eq; [|contradiction].
    apply (IH _ Ht), proper_starts_spec, (kmp_state p _ [] q H0 Eq).
Qed.

Lemma safe_template_spec (p : text) (t : template) (caps : list text) (st : text) :
  safe_template p t = true ->
  Forall (fun g => kmp p [] g <> None) caps ->
  is_start p st -> kmp p st (expand t caps) = Some [].
Proof.
  intros Ht Hcaps Hst.
  apply (template_safe_spec p caps t (start_nil p st Hst) Hcaps _ Ht),
    proper_starts_spec, Hst.
Qed.

Lemma safe_text_spec (p new st : text) :
  safe_text p new = true -> is_start p st -> kmp p st new = Some [].
Proof.
  intros Hn Hst. rewrite <- (expand_lits new []) at 1.
  apply safe_template_spec; [exact Hn | constructor | exact Hst].
Qed.

Lemma suffix_snoc_cases (t m : text) (x : char) :
  t `suffix_of` m ++ [x] -> t = [] \/ exists t0, t = t0 ++ [x] /\ t0 `suffix_of` m.
Proof.
  destruct t as [|y t0 _] using rev_ind; [left; reflexivity|].
  intros H. right. exists t0.
  apply suffix_snoc_inv_1 in H as Hy. apply suffix_snoc_inv_2 in H. subst y. auto.
Qed.

(** [str.replace] of [p] by a text that brings the search back to its
    start leaves no occurrence of [p]. *)
Lemma replace_clears_kmp (p new : text) :
  safe_text p new = true ->
  forall fuel s m, length s < fuel -> is_start p m ->
    (forall t, t `suffix_of` m -> t <> [] -> strip_prefix p (t ++ s) = None) ->
    kmp p m (scan (replace_matcher p new) fuel s) <> None.
Proof.
  intros Hnew. induction fuel as [|fuel IH]; intros s m Hlen Hm Hinv; [lia|].
  cbn [scan]. unfold replace_matcher at 1.
  destruct (strip_prefix p s) as [rest|] eqn:E.
  - apply strip_prefix_Some in E as ->.
    assert (Hp : p <> []) by (destruct (start_nil p m Hm) as [_ Hp]; congruence).
    assert (Hl : length rest < length (p ++ rest)).
    { rewrite length_app. destruct p; [contradiction|]. simpl. lia. }
    apply Nat.ltb_lt in Hl as Hb. rewrite Hb.
    rewrite kmp_app, (safe_text_spec p new m Hnew Hm).
    apply IH; [lia | apply (start_nil p m Hm)|].
    intros t Ht Hne. apply suffix_nil_inv in Ht. contradiction.
  - destruct s as [|x s]; [simpl; discriminate|].
    cbn [copy_one kmp]. simpl in Hlen.
    assert (Hnext : forall t, t `suffix_of` kmp_step p m x -> t <> [] ->
                              strip_prefix p (t ++ s) = None).
    { intros t Ht Hne.
      assert (Ht' : t `suffix_of` m ++ [x])
        by (etransitivity; [exact Ht | apply longest_start_suffix]).
      apply suffix_snoc_cases in Ht' as [-> | (t0 & -> & Ht0)]; [contradiction|].
      rewrite <- app_assoc. cbn [app]. destruct t0 as [|y t0]; [exact E|].
      apply Hinv; [exact Ht0 | discriminate]. }
    destruct (text_eqb (kmp_step p m x) p) eqn:Ep.
    + apply text_eqb_eq in Ep. exfalso.
      specialize (Hnext p). rewrite Ep in Hnext.
      rewrite strip_prefix_app in Hnext.
      assert (Hp : p <> []) by (destruct (start_nil p m Hm) as [_ Hp]; congruence).
      specialize (Hnext ltac:(reflexivity) Hp). discriminate.
    + apply IH; [lia | split; [apply kmp_step_prefix | apply text_eqb_neq, Ep] | exact Hnext].
Qed.

Section Free.
Context {U : UnicodeDB}.
Variable p : text.
Hypothesis p_nonempty : is_start p [].

Lemma first_replace_free (old new : string) (s : text) :
  txt old = p -> safe_text p (txt new) = true ->
  kmp p [] (replace old new s) <> None.
Proof.
  intros Hold Hnew. unfold replace, scan_all. rewrite Hold.
  apply (replace_clears_kmp p (txt new) Hnew); [lia | exact p_nonempty|].
  intros t Ht Hne. apply suffix_nil_inv in Ht. contradiction.
Qed.

Lemma replace_free (old new : string) (s : text) :
  safe_text p (txt new) = true ->
  kmp p [] s <> None -> kmp p [] (replace old new s) <> None.
Proof.
  intros Hnew. apply (edits_kmp p (fun _ n => n = txt new)).
  - intros m n -> _ st Hst. apply safe_text_spec; assumption.
  - apply scan_edits. intros s0 ins rest. unfold replace_matcher.
    destruct (strip_prefix (txt old) s0) as [r|] eqn:E; [|discriminate].
    intros [= <- <-]. exists (txt old). split; [apply strip_prefix_Some, E | reflexivity].
  - exact p_nonempty.
Qed.

Lemma match_nodes_substrings (r : regex) (s : text) (caps0 caps1 : list text) (rest : text) :
  match_nodes r s caps0 = Some (caps1, rest) ->
  exists m cs, s = m ++ rest /\ caps1 = caps0 ++ cs /\ Forall (substring m) cs.
Proof.
  revert s caps0. induction r as [|[a|body] r IH]; intros s caps0; simpl.
  - intros [= <- <-]. exists [], []. rewrite app_nil_r. auto.
  - intros H. apply match_atom_sound in H as (m1 & s1 & -> & _ & H).
    apply IH in H as (m2 & cs & -> & -> & Hc).
    exists (m1 ++ m2), cs. rewrite app_assoc. repeat split.
    eapply Forall_impl; [exact Hc|]. intros g (a1 & b1 & ->).
    exists (m1 ++ a1), b1. rewrite <- !app_assoc. reflexivity.
  - intros H. apply match_atoms_sound in H as (m1 & s1 & -> & _ & H).
    rewrite consumed_app in H.
    apply IH in H as (m2 & cs & -> & -> & Hc).
    exists (m1 ++ m2), (m1 :: cs). rewrite <- !app_assoc. repeat split.
    constructor.
    + exists [], m2. reflexivity.
    + eapply Forall_impl; [exact Hc|]. intros g (a1 & b1 & ->).
      exists (m1 ++ a1), b1. rewrite <- !app_assoc. reflexivity.
Qed.

Lemma sub_free (r : regex) (t : template) (s : text) :
  safe_template p t = true ->
  kmp p [] s <> None -> kmp p [] (sub r t s) <> None.
Proof.
  intros Ht.
  apply (edits_kmp p (fun m n => exists cs, Forall (substring m) cs /\ n = expand t cs)).
  - intros m n (cs & Hcs & ->) Hm st Hst. apply safe_template_spec; [exact Ht| |exact Hst].
    eapply Forall_impl; [exact Hcs|]. intros g Hg.
    apply (kmp_substring p m g p_nonempty Hg Hm).
  - apply scan_edits. intros s0 ins rest. unfold sub_matcher, re_match.
    destruct (match_nodes r s0 []) as [[caps rest']|] eqn:E; [|discriminate].
    intros [= <- <-]. apply match_nodes_substrings in E as (m & cs & -> & -> & Hc).
    exists m. split; [reflexivity|]. exists cs. auto.
  - exact p_nonempty.
Qed.

Lemma re_sub_free (pattern repl : string) (s t : text) :
  safe_template p (parse_template (txt repl)) = true ->
  re_sub pattern repl s = inr t ->
  kmp p [] s <> None -> kmp p [] t <> None.
Proof.
  intros Ht. unfold re_sub. destruct (re_compile pattern) as [r|]; [|discriminate].
  intros [= <-]. apply sub_free, Ht.
Qed.

Lemma free_contains (s : text) : kmp p [] s <> None -> contains p s = false.
Proof.
  intros H. destruct (kmp p [] s) as [q|] eqn:E; [|contradiction].
  apply (kmp_contains p s [] q p_nonempty E).
Qed.
End Free.

(** ** Patterns that are, or start with, a literal text *)

Lemma scan_ext (m1 m2 : matcher) (fuel : nat) (s : text) :
  (forall x, m1 x = m2 x) -> scan m1 fuel s = scan m2 fuel s.
Proof.
  intros H. revert s. induction fuel as [|fuel IH]; intros s; simpl; [reflexivity|].
  rewrite H. destruct (m2 s) as [[ins rest]|].
  - destruct (length rest <? length s); [rewrite IH; reflexivity|].
    destruct s; simpl; rewrite ?IH; reflexivity.
  - destruct s; simpl; rewrite ?IH; reflexivity.
Qed.

Section Literal.
Context {U : UnicodeDB}.

Lemma match_literal (r : regex) (l s : text) (caps : list text) :
  literal_of r = Some l ->
  match_nodes r s caps =
  match strip_prefix l s with
  | Some rest => Some (caps, rest)
  | None => None
  end.
Proof.
  revert l s. induction r as [|[[c|cls|q cls]|body] r IH]; intros l s; simpl; try discriminate.
  - intros [= <-]. reflexivity.
  - destruct (literal_of r) as [l'|]; [|discriminate]. intros [= <-].
    destruct s as [|x s]; simpl; [reflexivity|].
    destruct (char_eqb c x); [apply IH; reflexivity | reflexivity].
Qed.

Lemma literal_template (t : template) :
  forallb is_lit t = true -> t = map TLit (expand t []).
Proof.
  induction t as [|[c|n] t IH]; [reflexivity| |discriminate].
  intros H. cbn [forallb is_lit andb] in H.
  rewrite expand_cons. cbn [expand_item app map]. f_equal. apply IH, H.
Qed.

(** [re.sub] with a literal pattern and a literal replacement is
    [str.replace]. *)
Lemma sub_literal (r : regex) (t : template) (l s : text) :
  literal_of r = Some l -> forallb is_lit t = true ->
  sub r t s = scan_all (replace_matcher l (expand t [])) s.
Proof.
  intros Hr Ht. unfold sub, scan_all. apply scan_ext. intros x.
  unfold sub_matcher, re_match, replace_matcher. rewrite (match_literal r l x [] Hr).
  destruct (strip_prefix l x); reflexivity.
Qed.

Lemma re_sub_literal (pattern repl : string) (l s : text) :
  literal_pattern pattern = Some l ->
  forallb is_lit (parse_template (txt repl)) = true ->
  re_sub pattern repl s =
  inr (scan_all (replace_matcher l (expand (parse_template (txt repl)) [])) s).
Proof.
  unfold literal_pattern, re_sub. destruct (re_compile pattern) as [r|]; [|discriminate].
  intros Hr Ht. rewrite (sub_literal r _ l s Hr Ht). reflexivity.
Qed.

(** After a [re.sub] of a literal pattern [p] by a literal text that
    brings the search back to its start, no occurrence of [p] is left. *)
Lemma re_sub_literal_free (p : text) (pattern repl : string) (s t : text) :
  is_start p [] ->
  literal_pattern pattern = Some p ->
  forallb is_lit (parse_template (txt repl)) = true ->
  safe_template p (parse_template (txt repl)) = true ->
  re_sub pattern repl s = inr t -> kmp p [] t <> None.
Proof.
  intros Hp Hpat Hlit Hsafe. rewrite (re_sub_literal pattern repl p s Hpat Hlit).
  intros [= <-]. unfold scan_all.
  apply replace_clears_kmp; [|lia | exact Hp|].
  - unfold safe_text. rewrite <- (literal_template _ Hlit). exact Hsafe.
  - intros u Hu Hne. apply suffix_nil_inv in Hu. contradiction.
Qed.

Lemma match_lit_prefix (r : regex) (s : text) (caps : list text) :
  match_nodes r s caps <> None -> exists rest, s = lit_prefix r ++ rest.
Proof.
  revert s. induction r as [|[[c|cls|q cls]|body] r IH]; intros s; simpl;
    try (intros _; exists s; reflexivity).
  destruct s as [|x s]; [intros []; reflexivity|].
  destruct (char_eqb c x) eqn:E; [|intros []; reflexivity].
  apply char_eqb_eq in E as ->. intros H. destruct (IH s H) as [rest ->].
  exists rest. reflexivity.
Qed.

(** Where the literal beginning of the pattern does not occur, [re.sub]
    copies its input. *)
Lemma re_sub_absent (pattern repl : string) (l s : text) :
  pattern_prefix pattern = Some l -> contains l s = false ->
  re_sub pattern repl s = inr s.
Proof.
  unfold pattern_prefix, re_sub. destruct (re_compile pattern) as [r|]; [|discriminate].
  intros [= <-] Hc. f_equal. unfold sub, scan_all. apply scan_no_match.
  intros a b ->. unfold sub_matcher, re_match.
  destruct (match_nodes r b []) as [[caps rest]|] eqn:E; [|reflexivity].
  destruct (match_lit_prefix r b []) as [rest' ->]; [rewrite E; discriminate|].
  rewrite contains_app in Hc. discriminate.
Qed.

Lemma replace_absent_all (old new : string) (s : text) :
  contains (txt old) s = false -> replace old new s = s.
Proof. intros H. unfold replace, scan_all. apply replace_absent, H. Qed.
End Literal.

(** ** Line endings *)

Lemma universal_newlines_no_cr (c : text) : Forall (fun x => x <> 13%N) (universal_newlines c).
Proof.
  remember (length c) as n eqn:Hn. revert c Hn.
  induction n as [n IH] using lt_wf_ind. intros c Hn. subst n.
  destruct c as [|x c]; [constructor|]. cbn [universal_newlines].
  destruct (char_eqb x 13%N) eqn:Ex.
  - destruct c as [|d c]; [repeat constructor; discriminate|].
    destruct (char_eqb d 10%N).
    + constructor; [discriminate|]. apply (IH (length c)); [simpl; lia | reflexivity].
    + constructor; [discriminate|]. apply (IH (length (d :: c))); [simpl; lia | reflexivity].
  - constructor.
    + intros ->. rewrite char_eqb_refl in Ex. discriminate.
    + apply (IH (length c)); [simpl; lia | reflexivity].
Qed.

Lemma no_cr_free (s : text) : Forall (fun x => x <> 13%N) s -> kmp cr [] s <> None.
Proof.
  induction 1 as [|x s Hx _ IH]; [discriminate|].
  cbn [kmp].
  assert (kmp_step cr [] x = []) as ->.
  { unfold kmp_step, cr. simpl. unfold starts. simpl.
    destruct (char_eqb x 13%N) eqn:Ex; [apply char_eqb_eq in Ex; contradiction | reflexivity]. }
  exact IH.
Qed.

Lemma universal_newlines_id (c : text) :
  contains cr c = false -> universal_newlines c = c.
Proof.
  induction c as [|x c IH]; [reflexivity|]. intros H.
  apply contains_false_tail in H as [Hx Hc].
  assert (Ex : char_eqb x 13%N = false).
  { unfold cr in Hx. cbn [strip_prefix] in Hx.
    destruct (char_eqb 13%N x) eqn:E; [discriminate|].
    destruct (char_eqb x 13%N) eqn:E'; [|reflexivity].
    apply char_eqb_eq in E' as ->. rewrite char_eqb_refl in E. discriminate. }
  cbn [universal_newlines]. rewrite Ex, (IH Hc). reflexivity.
Qed.

(** ** What the scripts leave behind *)

Ltac open_stages H :=
  cbv zeta in H;
  repeat match type of H with
         | context [re_sub ?pat ?repl ?s] =>
             let t := fresh "t" in
             let E := fresh "E" in
             destruct (re_sub pat repl s) as [?|t] eqn:E; [discriminate H|];
             cbn [mbind exn_bind] in H
         end;
  injection H as <-.

Ltac free_stage p Hp :=
  first
    [ match goal with
      | E : re_sub ?pat ?repl ?s = inr ?t |- kmp p [] ?t <> None =>
          first
            [ apply (re_sub_literal_free p pat repl s t Hp);
              [vm_compute; reflexivity | vm_compute; reflexivity
              |vm_compute; reflexivity | exact E]
            | apply (re_sub_free p Hp pat repl s t); [vm_compute; reflexivity | exact E |] ]
      end
    | apply (first_replace_free p Hp); [vm_compute; reflexivity | vm_compute; reflexivity]
    | apply (replace_free p Hp); [vm_compute; reflexivity|] ].

Ltac free_chain :=
  match goal with
  | |- contains ?p ?out = false =>
      let Hp := fresh "Hp" in
      assert (Hp : is_start p []) by (apply start_of_nonempty; vm_compute; discriminate);
      apply (free_contains p Hp);
      repeat free_stage p Hp
  end.

Ltac no_cr_chain :=
  match goal with
  | |- contains cr ?out = false =>
      let Hp := fresh "Hp" in
      assert (Hp : is_start cr []) by (apply start_of_nonempty; discriminate);
      apply (free_contains cr Hp);
      repeat free_stage cr Hp;
      try assumption
  end.

Section Leftovers.
Context {U : UnicodeDB}.

Lemma fix_tests_rewrite_free (content t : text) :
  fix_tests_rewrite content = inr t ->
  Forall (fun old : string => contains (txt old) t = false)
    ["config.num_persons"; "config.enable_trade_fees"; "config.trade_fee_rate";
     "config.enable_income_tax"; "config.income_tax_rate"; "config.price_floor";
     "config.price_ceiling"; "TransactionType::Purchase"; "TransactionType::Sale";
     "TransactionType::Production"].
Proof.
  intros H. unfold fix_tests_rewrite in H. open_stages H.
  repeat (apply Forall_cons_2; [free_chain|]). apply Forall_nil_2.
Qed.

Lemma fix_final_rewrite_free (content t : text) :
  fix_final_rewrite content = inr t ->
  Forall (fun old : string => contains (txt old) t = false)
    ["use crate::person::{Person, TransactionType};";
     "let mut person = Person::new(1, 100.0, skill1, vec![skill2.id.clone()]);";
     "result.total_trades > 0"; "result.total_trades >= 0"].
Proof.
  intros H. unfold fix_final_rewrite, add_compress_argument in H. open_stages H.
  repeat (apply Forall_cons_2; [free_chain|]). apply Forall_nil_2.
Qed.

Lemma fix_remaining_rewrite_free (content t : text) :
  fix_remaining_rewrite content = inr t ->
  Forall (fun old : string => contains (txt old) t = false)
    ["result.gini_coefficient"; "result.average_transaction_price"].
Proof.
  intros H. unfold fix_remaining_rewrite, rename_gini in H. open_stages H.
  repeat (apply Forall_cons_2; [free_chain|]). apply Forall_nil_2.
Qed.

Lemma simplify_tests_rewrite_free (content t : text) :
  simplify_tests_rewrite content = inr t ->
  Forall (fun old : string => contains (txt old) t = false)
    ["assert!(result.trade_volume_statistics.total_trades > 0);";
     "assert!(result.money_statistics.average > 0.0);"].
Proof.
  intros H. unfold simplify_tests_rewrite in H. open_stages H.
  repeat (apply Forall_cons_2; [free_chain|]). apply Forall_nil_2.
Qed.

Lemma fix_tests_rewrite_no_cr (content t : text) :
  kmp cr [] content <> None -> fix_tests_rewrite content = inr t -> contains cr t = false.
Proof. intros Hc H. unfold fix_tests_rewrite in H. open_stages H. no_cr_chain. Qed.

Lemma fix_final_rewrite_no_cr (content t : text) :
  kmp cr [] content <> None -> fix_final_rewrite content = inr t -> contains cr t = false.
Proof.
  intros Hc H. unfold fix_final_rewrite, add_compress_argument in H. open_stages H.
  no_cr_chain.
Qed.

Lemma fix_remaining_rewrite_no_cr (content t : text) :
  kmp cr [] content <> None -> fix_remaining_rewrite content = inr t -> contains cr t = false.
Proof.
  intros Hc H. unfold fix_remaining_rewrite, rename_gini in H. open_stages H.
  no_cr_chain.
Qed.

Lemma simplify_tests_rewrite_no_cr (content t : text) :
  kmp cr [] content <> None -> simplify_tests_rewrite content = inr t -> contains cr t = false.
Proof. intros Hc H. unfold simplify_tests_rewrite in H. open_stages H. no_cr_chain. Qed.
End Leftovers.

Lemma read_missing `{UnicodeDB} (rw : text -> exn + text) (msg : string) (w : world) :
  files w !! tests_rs = None ->
  (content ← read_file tests_rs;
   content ← lift (rw content);
   write_file tests_rs content;;
   print msg) w = (inl (FileNotFoundError tests_rs), w).
Proof.
  intros Hc. unfold mbind, io_bind, bind, read_file. rewrite Hc. reflexivity.
Qed.

Ltac absent_stage content :=
  match goal with
  | H : contains (txt ?old) content = false |- context [replace ?old ?new content] =>
      rewrite (replace_absent_all old new content H)
  | H : contains (txt ?trigger) content = false |- context [re_sub ?pat ?repl content] =>
      rewrite (re_sub_absent pat repl (txt trigger) content ltac:(vm_compute; reflexivity) H);
      cbn [mbind exn_bind]
  end.

Section Unconcerned.
Context {U : UnicodeDB}.

Lemma fix_tests_rewrite_unconcerned (content : text) :
  Forall (fun trigger : string => contains (txt trigger) content = false)
    ["config.num_persons"; "config.enable_trade_fees"; "config.trade_fee_rate";
     "config.enable_income_tax"; "config.income_tax_rate"; "config.price_floor";
     "config.price_ceiling"; "TransactionType::Purchase"; "TransactionType::Sale";
     "TransactionType::Production"; "person.record_transaction(";
     "assert_eq!(person.total_purchases_value, ";
     "assert_eq!(person.total_sales_value, "; "#[test]"] ->
  fix_tests_rewrite content = inr content.
Proof.
  rewrite !Forall_cons, Forall_nil. intros H.
  repeat match type of H with _ /\ _ => destruct H as [? H] end.
  unfold fix_tests_rewrite. cbv zeta. do 16 absent_stage content. reflexivity.
Qed.

Lemma fix_final_rewrite_unconcerned (content : text) :
  Forall (fun trigger : string => contains (txt trigger) content = false)
    ["use crate::person::{Person, TransactionType};";
     "let mut person = Person::new(1, 100.0, skill1, vec![skill2.id.clone()]);";
     "result.total_trades > 0"; "result.total_trades >= 0";
     "result.save_to_file("] ->
  fix_final_rewrite content = inr content.
Proof.
  rewrite !Forall_cons, Forall_nil. intros H.
  repeat match type of H with _ /\ _ => destruct H as [? H] end.
  unfold fix_final_rewrite, add_compress_argument. cbv zeta.
  do 5 absent_stage content. reflexivity.
Qed.

Lemma simplify_tests_rewrite_unconcerned (content : text) :
  Forall (fun trigger : string => contains (txt trigger) content = false)
    ["assert!(result.money_statistics.gini_coefficient <= 1.0);";
     "assert!(result.trade_volume_statistics.total_trades > 0);";
     "assert!(result.money_statistics.average > 0.0);"] ->
  simplify_tests_rewrite content = inr content.
Proof.
  rewrite !Forall_cons, Forall_nil. intros H.
  repeat match type of H with _ /\ _ => destruct H as [? H] end.
  unfold simplify_tests_rewrite. cbv zeta. do 3 absent_stage content. reflexivity.
Qed.
End Unconcerned.

(** ** Properties of the four scripts *)

(** X1.  Whatever the test file holds, the text fix_tests.py writes
    back contains none of the ten names it renames: the seven old
    configuration fields and the three old [TransactionType] variants. *)
Theorem fix_tests_leaves_no_old_name `{UnicodeDB} (w : world) (content : text) :
  files w !! tests_rs = Some content ->
  exists out : text,
    fix_tests w = (inr tt, patched w out "Fixed tests file") /\
    Forall (fun old : string => contains (txt old) out = false)
      ["config.num_persons"; "config.enable_trade_fees"; "config.trade_fee_rate";
       "config.enable_income_tax"; "config.income_tax_rate"; "config.price_floor";
       "config.price_ceiling"; "TransactionType::Purchase"; "TransactionType::Sale";
       "TransactionType::Production"].
Proof.
  intros Hc.
  destruct (fix_tests_rewrite_total (universal_newlines content)) as [t Ht].
  exists t. split; [apply (fix_tests_runs w content t Hc Ht)|].
  apply (fix_tests_rewrite_free _ t Ht).
Qed.

Definition world_tests : world :=
  {| files := {[ tests_rs :=
       txt "config.price_floor = 1.0; person.record_transaction(1, TransactionType::Sale, &skill.id, 10.0, 5.0);" ]};
     stdout := [] |}.

Lemma fix_tests_leaves_no_old_name_witness :
  exists out : text,
    @fix_tests latin1_only world_tests = (inr tt, patched world_tests out "Fixed tests file") /\
    Forall (fun old : string => contains (txt old) out = false)
      ["config.num_persons"; "config.enable_trade_fees"; "config.trade_fee_rate";
       "config.enable_income_tax"; "config.income_tax_rate"; "config.price_floor";
       "config.price_ceiling"; "TransactionType::Purchase"; "TransactionType::Sale";
       "TransactionType::Production"].
Proof.
  apply (@fix_tests_leaves_no_old_name latin1_only world_tests
           (txt "config.price_floor = 1.0; person.record_transaction(1, TransactionType::Sale, &skill.id, 10.0, 5.0);")).
  vm_compute. reflexivity.
Defined.

(** X2.  Whatever the test file holds, the text fix_final.py writes back
    contains none of the import line, the old [Person::new] call and the
    two old [total_trades] comparisons it rewrites. *)
Theorem fix_final_leaves_no_old_text `{UnicodeDB} (w : world) (content : text) :
  files w !! tests_rs = Some content ->
  exists out : text,
    fix_final w = (inr tt, patched w out "Fixed final push tests") /\
    Forall (fun old : string => contains (txt old) out = false)
      ["use crate::person::{Person, TransactionType};";
       "let mut person = Person::new(1, 100.0, skill1, vec![skill2.id.clone()]);";
       "result.total_trades > 0"; "result.total_trades >= 0"].
Proof.
  intros Hc.
  destruct (fix_final_rewrite_total (universal_newlines content)) as [t Ht].
  exists t. split; [apply (fix_final_runs w content t Hc Ht)|].
  apply (fix_final_rewrite_free _ t Ht).
Qed.

Definition world_final : world :=
  {| files := {[ tests_rs :=
       txt "assert!(result.total_trades >= 0); result.save_to_file(path).unwrap();" ]};
     stdout := [] |}.

Lemma fix_final_leaves_no_old_text_witness :
  exists out : text,
    @fix_final latin1_only world_final = (inr tt, patched world_final out "Fixed final push tests") /\
    Forall (fun old : string => contains (txt old) out = false)
      ["use crate::person::{Person, TransactionType};";
       "let mut person = Person::new(1, 100.0, skill1, vec![skill2.id.clone()]);";
       "result.total_trades > 0"; "result.total_trades >= 0"].
Proof.
  apply (@fix_final_leaves_no_old_text latin1_only world_final
           (txt "assert!(result.total_trades >= 0); result.save_to_file(path).unwrap();")).
  vm_compute. reflexivity.
Defined.

(** X3.  Whatever the test file holds, the text fix_remaining.py writes
    back contains neither [result.gini_coefficient] nor
    [result.average_transaction_price]. *)
Theorem fix_remaining_leaves_no_old_field `{UnicodeDB} (w : world) (content : text) :
  files w !! tests_rs = Some content ->
  exists out : text,
    fix_remaining w = (inr tt, patched w out "Fixed remaining issues") /\
    Forall (fun old : string => contains (txt old) out = false)
      ["result.gini_coefficient"; "result.average_transaction_price"].
Proof.
  intros Hc.
  destruct (fix_remaining_rewrite_total (universal_newlines content)) as [t Ht].
  exists t. split; [apply (fix_remaining_runs w content t Hc Ht)|].
  apply (fix_remaining_rewrite_free _ t Ht).
Qed.

Definition world_remaining : world :=
  {| files := {[ tests_rs :=
       txt "assert!(result.gini_coefficient >= 0.0); let p = result.average_transaction_price;" ]};
     stdout := [] |}.

Lemma fix_remaining_leaves_no_old_field_witness :
  exists out : text,
    @fix_remaining latin1_only world_remaining =
      (inr tt, patched world_remaining out "Fixed remaining issues") /\
    Forall (fun old : string => contains (txt old) out = false)
      ["result.gini_coefficient"; "result.average_transaction_price"].
Proof.
  apply (@fix_remaining_leaves_no_old_field latin1_only world_remaining
           (txt "assert!(result.gini_coefficient >= 0.0); let p = result.average_transaction_price;")).
  vm_compute. reflexivity.
Defined.

(** X4.  Whatever the test file holds, the text simplify_tests.py writes
    back contains neither the [total_trades > 0] assertion nor the
    [average > 0.0] assertion. *)
Theorem simplify_tests_leaves_no_trade_or_average_assertion `{UnicodeDB}
    (w : world) (content : text) :
  files w !! tests_rs = Some content ->
  exists out : text,
    simplify_tests w = (inr tt, patched w out "Relaxed test assertions") /\
    Forall (fun old : string => contains (txt old) out = false)
      ["assert!(result.trade_volume_statistics.total_trades > 0);";
       "assert!(result.money_statistics.average > 0.0);"].
Proof.
  intros Hc.
  destruct (simplify_tests_rewrite_total (universal_newlines content)) as [t Ht].
  exists t. split; [apply (simplify_tests_runs w content t Hc Ht)|].
  apply (simplify_tests_rewrite_free _ t Ht).
Qed.

Definition world_simplify : world :=
  {| files := {[ tests_rs :=
       txt "assert!(result.money_statistics.average > 0.0); assert!(result.trade_volume_statistics.total_trades > 0);" ]};
     stdout := [] |}.

Lemma simplify_tests_leaves_no_trade_or_average_assertion_witness :
  exists out : text,
    @simplify_tests latin1_only world_simplify =
      (inr tt, patched world_simplify out "Relaxed test assertions") /\
    Forall (fun old : string => contains (txt old) out = false)
      ["assert!(result.trade_volume_statistics.total_trades > 0);";
       "assert!(result.money_statistics.average > 0.0);"].
Proof.
  apply (@simplify_tests_leaves_no_trade_or_average_assertion latin1_only world_simplify
           (txt "assert!(result.money_statistics.average > 0.0); assert!(result.trade_volume_statistics.total_trades > 0);")).
  vm_compute. reflexivity.
Defined.

(** X5.  The scripts normalise line endings: whatever the test file
    holds, the text each script writes back contains no carriage
    return. *)
Theorem scripts_write_no_carriage_return `{UnicodeDB} (w : world) (content : text) :
  files w !! tests_rs = Some content ->
  Forall (fun sm : io unit * string =>
            exists out : text,
              sm.1 w = (inr tt, patched w out sm.2) /\ contains cr out = false)
    [(fix_tests, "Fixed tests file");
     (fix_final, "Fixed final push tests");
     (fix_remaining, "Fixed remaining issues");
     (simplify_tests, "Relaxed test assertions")].
Proof.
  intros Hc. rewrite !Forall_cons, Forall_nil.
  pose proof (no_cr_free _ (universal_newlines_no_cr content)) as Hn.
  refine (conj _ (conj _ (conj _ (conj _ I)))); cbn [fst snd].
  - destruct (fix_tests_rewrite_total (universal_newlines content)) as [t Ht].
    exists t. split; [apply (fix_tests_runs w content t Hc Ht)|].
    apply (fix_tests_rewrite_no_cr _ t Hn Ht).
  - destruct (fix_final_rewrite_total (universal_newlines content)) as [t Ht].
    exists t. split; [apply (fix_final_runs w content t Hc Ht)|].
    apply (fix_final_rewrite_no_cr _ t Hn Ht).
  - destruct (fix_remaining_rewrite_total (universal_newlines content)) as [t Ht].
    exists t. split; [apply (fix_remaining_runs w content t Hc Ht)|].
    apply (fix_remaining_rewrite_no_cr _ t Hn Ht).
  - destruct (simplify_tests_rewrite_total (universal_newlines content)) as [t Ht].
    exists t. split; [apply (simplify_tests_runs w content t Hc Ht)|].
    apply (simplify_tests_rewrite_no_cr _ t Hn Ht).
Qed.

(** A file with Windows line endings. *)
Definition world_crlf : world :=
  {| files := {[ tests_rs := txt "fn a() {}" ++ [13%N; 10%N] ++ txt "fn b() {}" ++ [13%N; 10%N] ]};
     stdout := [] |}.

Lemma scripts_write_no_carriage_return_witness :
  Forall (fun sm : io unit * string =>
            exists out : text,
              sm.1 world_crlf = (inr tt, patched world_crlf out sm.2) /\
              contains cr out = false)
    [(@fix_tests latin1_only, "Fixed tests file");
     (@fix_final latin1_only, "Fixed final push tests");
     (@fix_remaining latin1_only, "Fixed remaining issues");
     (@simplify_tests latin1_only, "Relaxed test assertions")].
Proof.
  apply (@scripts_write_no_carriage_return latin1_only world_crlf
           (txt "fn a() {}" ++ [13%N; 10%N] ++ txt "fn b() {}" ++ [13%N; 10%N])).
  vm_compute. reflexivity.
Defined.

(** X6.  Each of the other fourteen [str.replace] calls of the scripts is
    idempotent: on every text, a second application changes nothing. *)
Theorem replace_calls_idempotent (s : text) :
  Forall (fun on : string * string =>
            replace on.1 on.2 (replace on.1 on.2 s) = replace on.1 on.2 s)
    [("config.num_persons", "config.entity_count");
     ("config.enable_trade_fees", "config.transaction_fee");
     ("config.trade_fee_rate", "config.transaction_fee");
     ("config.enable_income_tax", "config.tax_rate");
     ("config.income_tax_rate", "config.tax_rate");
     ("config.price_floor", "config.min_skill_price");
     ("config.price_ceiling", "config.max_skill_price");
     ("TransactionType::Purchase", "TransactionType::Buy");
     ("TransactionType::Sale", "TransactionType::Sell");
     ("TransactionType::Production", "TransactionType::Buy");
     ("use crate::person::{Person, TransactionType};",
      "use crate::person::{Person, TransactionType, Strategy, Location};");
     ("result.total_trades > 0", "result.trade_volume_statistics.total_trades > 0");
     ("result.total_trades >= 0", "result.trade_volume_statistics.total_trades >= 0");
     ("result.average_transaction_price", "result.trade_volume_statistics.average_price")].
Proof.
  repeat (apply Forall_cons_2; [cbn [fst snd]; apply replace_absent_all; free_chain|]).
  apply Forall_nil_2.
Qed.

(** X7.  Without the test file each script raises [FileNotFoundError]
    and leaves the world as it was: nothing is written or printed. *)
Theorem scripts_need_the_test_file `{UnicodeDB} (w : world) :
  files w !! tests_rs = None ->
  Forall (fun script : io unit => script w = (inl (FileNotFoundError tests_rs), w))
    [fix_tests; fix_final; fix_remaining; simplify_tests].
Proof.
  intros Hc. rewrite !Forall_cons, Forall_nil.
  refine (conj _ (conj _ (conj _ (conj _ I)))).
  - exact (read_missing fix_tests_rewrite _ w Hc).
  - exact (read_missing fix_final_rewrite _ w Hc).
  - exact (read_missing fix_remaining_rewrite _ w Hc).
  - exact (read_missing simplify_tests_rewrite _ w Hc).
Qed.

Definition world_without_tests : world :=
  {| files := {[ "Cargo.toml" := txt "[package]" ]}; stdout := ["cargo test"] |}.

Lemma scripts_need_the_test_file_witness :
  Forall (fun script : io unit =>
            script world_without_tests = (inl (FileNotFoundError tests_rs), world_without_tests))
    [@fix_tests latin1_only; @fix_final latin1_only;
     @fix_remaining latin1_only; @simplify_tests latin1_only].
Proof.
  apply (@scripts_need_the_test_file latin1_only world_without_tests).
  vm_compute. reflexivity.
Defined.

(** X8.  A text with Unix line endings in which none of a script's
    search texts (the replaced names and the literal beginnings of its
    patterns) occurs is written back unchanged by that script. *)
Theorem scripts_keep_unconcerned_text `{UnicodeDB} (w : world) (content : text) :
  files w !! tests_rs = Some content ->
  contains cr content = false ->
  Forall (fun e : io unit * string * list string =>
            Forall (fun trigger : string => contains (txt trigger) content = false) e.2 ->
            e.1.1 w = (inr tt, patched w content e.1.2))
    [(fix_tests, "Fixed tests file",
      ["config.num_persons"; "config.enable_trade_fees"; "config.trade_fee_rate";
       "config.enable_income_tax"; "config.income_tax_rate"; "config.price_floor";
       "config.price_ceiling"; "TransactionType::Purchase"; "TransactionType::Sale";
       "TransactionType::Production"; "person.record_transaction(";
       "assert_eq!(person.total_purchases_value, ";
       "assert_eq!(person.total_sales_value, "; "#[test]"]);
     (fix_final, "Fixed final push tests",
      ["use crate::person::{Person, TransactionType};";
       "let mut person = Person::new(1, 100.0, skill1, vec![skill2.id.clone()]);";
       "result.total_trades > 0"; "result.total_trades >= 0";
       "result.save_to_file("]);
     (simplify_tests, "Relaxed test assertions",
      ["assert!(result.money_statistics.gini_coefficient <= 1.0);";
       "assert!(result.trade_volume_statistics.total_trades > 0);";
       "assert!(result.money_statistics.average > 0.0);"])].
Proof.
  intros Hc Hcr. rewrite 3 Forall_cons, Forall_nil.
  pose proof (universal_newlines_id content Hcr) as Hu.
  refine (conj _ (conj _ (conj _ I))); cbn [fst snd]; intros Ht.
  - apply (fix_tests_runs w content content Hc). rewrite Hu.
    apply fix_tests_rewrite_unconcerned, Ht.
  - apply (fix_final_runs w content content Hc). rewrite Hu.
    apply fix_final_rewrite_unconcerned, Ht.
  - apply (simplify_tests_runs w content content Hc). rewrite Hu.
    apply simplify_tests_rewrite_unconcerned, Ht.
Qed.

Definition world_unconcerned : world :=
  {| files := {[ tests_rs := txt "fn main() { let config = load(); }" ]}; stdout := [] |}.

Lemma scripts_keep_unconcerned_text_witness :
  Forall (fun sm : io unit * string =>
            sm.1 world_unconcerned =
              (inr tt, patched world_unconcerned (txt "fn main() { let config = load(); }") sm.2))
    [(@fix_tests latin1_only, "Fixed tests file");
     (@fix_final latin1_only, "Fixed final push tests");
     (@simplify_tests latin1_only, "Relaxed test assertions")].
Proof.
  pose proof (@scripts_keep_unconcerned_text latin1_only world_unconcerned
                (txt "fn main() { let config = load(); }")
                ltac:(vm_compute; reflexivity) ltac:(vm_compute; reflexivity)) as H.
  rewrite 3 Forall_cons, Forall_nil in H. destruct H as (H1 & H2 & H3 & _).
  rewrite 3 Forall_cons, Forall_nil. cbn [fst snd] in *.
  refine (conj (H1 _) (conj (H2 _) (conj (H3 _) I)));
    repeat (apply Forall_cons_2; [vm_compute; reflexivity|]); apply Forall_nil_2.
Defined.

(** ** Matches that are forced

    A text matches "exactly" when every repetition is followed by a
    character outside its class (or by the end of the input): the greedy
    repetition then takes the whole run and nothing has to be given
    back. *)

Section Exact.
Context {U : UnicodeDB}.

Definition boundary (cls : cclass) (s : text) : Prop :=
  match s with
  | [] => True
  | x :: _ => in_class cls x = false
  end.

Fixpoint exact_atoms (r : list atom) (m rest : text) : Prop :=
  match r with
  | [] => m = []
  | Lit c :: r' => exists m', m = c :: m' /\ exact_atoms r' m' rest
  | One cls :: r' =>
      exists x m', m = x :: m' /\ in_class cls x = true /\ exact_atoms r' m' rest
  | Many q cls :: r' =>
      exists a m', m = a ++ m' /\ (q = Plus -> a <> []) /\
        Forall (fun x => in_class cls x = true) a /\
        boundary cls (m' ++ rest) /\ exact_atoms r' m' rest
  end.

Fixpoint exact_nodes (r : regex) (m rest : text) (cs : list text) : Prop :=
  match r with
  | [] => m = [] /\ cs = []
  | Atom a :: r' =>
      exists m1 m2, m = m1 ++ m2 /\ exact_atoms [a] m1 (m2 ++ rest) /\
        exact_nodes r' m2 rest cs
  | Group body :: r' =>
      exists g m2 cs', m = g ++ m2 /\ cs = g :: cs' /\
        exact_atoms body g (m2 ++ rest) /\ exact_nodes r' m2 rest cs'
  end.

Lemma star_exact {A} (cls : cclass) (a rest : text) (k : text -> option A) (v : A) :
  Forall (fun x => in_class cls x = true) a -> boundary cls rest ->
  k rest = Some v -> star cls (a ++ rest) k = Some v.
Proof.
  intros Ha Hb Hk. induction Ha as [|x a Hx _ IH]; cbn [app].
  - destruct rest as [|y rest]; [exact Hk|]. cbn [star]. cbn [boundary] in Hb.
    rewrite Hb. exact Hk.
  - cbn [star]. rewrite Hx, IH. reflexivity.
Qed.

Lemma match_atoms_exact {A} (r : list atom) (m rest : text) (k : text -> option A) (v : A) :
  exact_atoms r m rest -> k rest = Some v -> match_atoms r (m ++ rest) k = Some v.
Proof.
  revert m. induction r as [|[c|cls|q cls] r IH]; intros m; cbn [exact_atoms match_atoms].
  - intros -> Hk. exact Hk.
  - intros (m' & -> & Hr) Hk. cbn [match_atom app]. rewrite char_eqb_refl.
    apply IH; assumption.
  - intros (x & m' & -> & Hx & Hr) Hk. cbn [match_atom app]. rewrite Hx.
    apply IH; assumption.
  - intros (a & m' & -> & Hq & Ha & Hb & Hr) Hk. rewrite <- app_assoc.
    assert (Hs : star cls (a ++ m' ++ rest) (fun s' => match_atoms r s' k) = Some v)
      by (apply star_exact; [exact Ha | exact Hb | apply IH; assumption]).
    destruct q; cbn [match_atom]; [exact Hs|].
    destruct a as [|x a]; [destruct (Hq eq_refl); reflexivity|].
    inversion Ha as [|? ? Hx Ha']; subst. cbn [app]. rewrite Hx.
    apply star_exact; [exact Ha' | exact Hb | apply IH; assumption].
Qed.

Lemma match_nodes_exact (r : regex) (m rest : text) (cs caps : list text) :
  exact_nodes r m rest cs -> match_nodes r (m ++ rest) caps = Some (caps ++ cs, rest).
Proof.
  revert m cs caps. induction r as [|[a|body] r IH]; intros m cs caps;
    cbn [exact_nodes match_nodes].
  - intros [-> ->]. rewrite app_nil_r. reflexivity.
  - intros (m1 & m2 & -> & Ha & Hr). rewrite <- app_assoc.
    apply (match_atoms_exact [a] m1 (m2 ++ rest)); [exact Ha|].
    apply IH, Hr.
  - intros (g & m2 & cs' & -> & -> & Hb & Hr). rewrite <- app_assoc.
    apply (match_atoms_exact body g (m2 ++ rest)); [exact Hb|].
    rewrite consumed_app, (IH m2 cs' _ Hr), <- app_assoc. reflexivity.
Qed.

Lemma scan_fuel (mt : matcher) (f1 f2 : nat) (s : text) :
  length s < f1 -> length s < f2 -> scan mt f1 s = scan mt f2 s.
Proof.
  revert f2 s. induction f1 as [|f1 IH]; intros f2 s H1 H2; [lia|].
  destruct f2 as [|f2]; [lia|]. cbn [scan].
  assert (Hcopy : copy_one (scan mt f1) s = copy_one (scan mt f2) s).
  { destruct s as [|x s]; [reflexivity|]. simpl in *. f_equal. apply IH; lia. }
  destruct (mt s) as [[ins rest]|]; [|exact Hcopy].
  destruct (length rest <? length s) eqn:El; [|rewrite Hcopy; reflexivity].
  apply Nat.ltb_lt in El. f_equal. apply IH; lia.
Qed.

(** A forced match at the start of the text is the one [re.sub]
    replaces; the rest of the text is rewritten on its own. *)
Lemma sub_exact (r : regex) (t : template) (m rest : text) (cs : list text) :
  exact_nodes r m rest cs -> m <> [] ->
  sub r t (m ++ rest) = expand t cs ++ sub r t rest.
Proof.
  intros Hm Hne. unfold sub, scan_all.
  set (rhs := scan (sub_matcher r t) (S (length rest)) rest). cbn [scan].
  unfold sub_matcher at 1, re_match. rewrite (match_nodes_exact r m rest cs [] Hm).
  cbn [app].
  assert (Hl : length rest < length (m ++ rest)).
  { rewrite length_app. destruct m; [contradiction|]. simpl. lia. }
  apply Nat.ltb_lt in Hl as Hb. rewrite Hb. f_equal. subst rhs. apply scan_fuel; lia.
Qed.

Lemma re_sub_exact (pattern repl : string) (r : regex) (m rest : text) (cs : list text) :
  re_compile pattern = Some r -> exact_nodes r m rest cs -> m <> [] ->
  re_sub pattern repl (m ++ rest) =
  inr (expand (parse_template (txt repl)) cs ++ sub r (parse_template (txt repl)) rest) /\
  re_sub pattern repl rest = inr (sub r (parse_template (txt repl)) rest).
Proof.
  intros Hr Hm Hne. unfold re_sub. rewrite Hr, (sub_exact r _ m rest cs Hm Hne). auto.
Qed.
End Exact.

Definition lits (l : text) : regex := map (fun c => Atom (Lit c)) l.

Definition lit_atoms (l : text) : list atom := map Lit l.

Section ExactLiterals.
Context {U : UnicodeDB}.

Lemma exact_lits (l : text) (r : regex) (m rest : text) (cs : list text) :
  exact_nodes r m rest cs -> exact_nodes (lits l ++ r) (l ++ m) rest cs.
Proof.
  intros H. induction l as [|c l IH]; [exact H|].
  cbn [lits map app exact_nodes]. exists [c], (l ++ m). split; [reflexivity|].
  split; [|exact IH]. cbn [exact_atoms]. exists []. auto.
Qed.

Lemma exact_lit_atoms (l : text) (r : list atom) (m rest : text) :
  exact_atoms r m rest -> exact_atoms (lit_atoms l ++ r) (l ++ m) rest.
Proof.
  intros H. induction l as [|c l IH]; [exact H|].
  cbn [lit_atoms map app exact_atoms]. exists (l ++ m). auto.
Qed.

Lemma exact_many (q : quant) (cls : cclass) (r : list atom) (a m rest : text) :
  a <> [] -> Forall (fun x => in_class cls x = true) a ->
  boundary cls (m ++ rest) -> exact_atoms r m rest ->
  exact_atoms (Many q cls :: r) (a ++ m) rest.
Proof. intros Ha Hf Hb Hr. cbn [exact_atoms]. exists a, m. auto. Qed.

Lemma exact_group (body : list atom) (r : regex) (g m rest : text) (cs : list text) :
  exact_atoms body g (m ++ rest) -> exact_nodes r m rest cs ->
  exact_nodes (Group body :: r) (g ++ m) rest (g :: cs).
Proof. intros Hb Hr. cbn [exact_nodes]. exists g, m, cs. auto. Qed.

Lemma exact_end (rest : text) : exact_nodes [] [] rest [].
Proof. split; reflexivity. Qed.

Lemma exact_atoms_end (rest : text) : exact_atoms [] [] rest.
Proof. reflexivity. Qed.
End ExactLiterals.

(** ** The two rewrites with groups *)

(** A call [result.save_to_file(a).unwrap();]. *)
Definition save_call (a : text) : text :=
  txt "result.save_to_file(" ++ a ++ txt ").unwrap();".

(** An argument text the pattern's group accepts: not empty, without a
    closing parenthesis. *)
Definition argument (a : text) : Prop := a <> [] /\ Forall (fun x => x <> 41%N) a.

Fixpoint falses (n : nat) : text :=
  match n with
  | 0 => []
  | S n' => txt ", false" ++ falses n'
  end.

(** The call shape the [record_transaction] pattern of fix_tests.py is
    written for, and the call it is turned into. *)
Definition old_record_call (step kind skill amount other : text) : text :=
  txt "person.record_transaction(" ++ step ++ txt ", TransactionType::" ++ kind
  ++ txt ", &" ++ skill ++ txt ".id, " ++ amount ++ txt ", " ++ other ++ txt ")".

Definition new_record_call (step kind skill amount : text) : text :=
  txt "person.record_transaction(" ++ step ++ txt ", " ++ skill
  ++ txt ".id.id.clone(), TransactionType::" ++ kind ++ txt ", " ++ amount
  ++ txt ", None)".

Section Rewrites.
Context {U : UnicodeDB}.

(** Running the [save_to_file] rewrite [n] times. *)
Fixpoint add_compress_argument_times (n : nat) (s : text) : exn + text :=
  match n with
  | 0 => inr s
  | S n' => s' ← add_compress_argument s; add_compress_argument_times n' s'
  end.

Definition digits (d : text) : Prop := d <> [] /\ Forall (fun x => is_digit x = true) d.

Definition word (w : text) : Prop := w <> [] /\ Forall (fun x => is_word x = true) w.

Definition number (n : text) : Prop :=
  n <> [] /\ Forall (fun x => (is_digit x || char_eqb 46%N x)%bool = true) n.

Lemma save_call_step (a post : text) :
  argument a ->
  exists rest' : text,
    add_compress_argument post = inr rest' /\
    add_compress_argument (save_call a ++ post) =
      inr (save_call (a ++ txt ", false") ++ rest').
Proof.
  intros [Hne Ha]. unfold add_compress_argument.
  set (pat := "result\.save_to_file\(([^)]+)\)\.unwrap\(\);").
  set (repl := "result.save_to_file(\1, false).unwrap();").
  pose (cls := {| negated := true; members := [CChar 41%N] |}).
  assert (Hr : re_compile pat =
               Some (lits (txt "result.save_to_file(")
                     ++ Group [Many Plus cls] :: lits (txt ").unwrap();") ++ []))
    by (vm_compute; reflexivity).
  assert (Hm : exact_nodes
                 (lits (txt "result.save_to_file(")
                  ++ Group [Many Plus cls] :: lits (txt ").unwrap();") ++ [])
                 (txt "result.save_to_file(" ++ (a ++ []) ++ txt ").unwrap();" ++ [])
                 post [a ++ []]).
  { apply exact_lits, exact_group; [|apply exact_lits, exact_end].
    apply exact_many; [exact Hne | | vm_compute; reflexivity
                      | apply exact_atoms_end].
    eapply Forall_impl; [exact Ha|].
    intros x Hx. unfold in_class, cls.
    cbn [negated members existsb in_item orb].
    destruct (char_eqb 41%N x) eqn:E; [apply char_eqb_eq in E; congruence | reflexivity]. }
  rewrite !app_nil_r in Hm.
  destruct (re_sub_exact pat repl _ _ post _ Hr Hm) as [H1 H2].
  { unfold txt. simpl. discriminate. }
  eexists. split; [exact H2|].
  unfold save_call. rewrite <- !app_assoc in *. rewrite H1. f_equal.
  assert (Ht : parse_template (txt repl) =
               map TLit (txt "result.save_to_file(")
               ++ TRef 1 :: map TLit (txt ", false" ++ txt ").unwrap();"))
    by (vm_compute; reflexivity).
  rewrite Ht at 1. rewrite expand_app, expand_lits, expand_cons, expand_lits.
  cbn [expand_item nth]. rewrite <- !app_assoc. reflexivity.
Qed.

Lemma argument_false (a : text) : argument a -> argument (a ++ txt ", false").
Proof.
  intros [Hne Ha]. split.
  - destruct a; [contradiction | discriminate].
  - apply Forall_app. split; [exact Ha|]. vm_compute.
    repeat (constructor; [discriminate|]). constructor.
Qed.

Lemma save_call_times (a : text) (n : nat) :
  argument a ->
  add_compress_argument_times n (save_call a) = inr (save_call (a ++ falses n)).
Proof.
  revert a. induction n as [|n IH]; intros a Ha; cbn [add_compress_argument_times falses].
  - rewrite app_nil_r. reflexivity.
  - destruct (save_call_step a [] Ha) as (rest' & H0 & H1).
    rewrite app_nil_r in H1. rewrite H1. cbn [mbind exn_bind].
    assert (rest' = []) as ->.
    { vm_compute in H0. injection H0 as <-. reflexivity. }
    rewrite app_nil_r, (IH _ (argument_false a Ha)), <- app_assoc. reflexivity.
Qed.

Lemma digits_class (d : text) :
  Forall (fun x => is_digit x = true) d ->
  Forall (fun x => in_class {| negated := false; members := [CDigit] |} x = true) d.
Proof.
  intros H. eapply Forall_impl; [exact H|]. intros x Hx. unfold in_class.
  cbn [negated members existsb in_item xorb]. rewrite orb_false_r. exact Hx.
Qed.

Lemma word_class (w : text) :
  Forall (fun x => is_word x = true) w ->
  Forall (fun x => in_class {| negated := false; members := [CWord] |} x = true) w.
Proof.
  intros H. eapply Forall_impl; [exact H|]. intros x Hx. unfold in_class.
  cbn [negated members existsb in_item xorb]. rewrite orb_false_r. exact Hx.
Qed.

Lemma number_class (n : text) :
  Forall (fun x => (is_digit x || char_eqb 46%N x)%bool = true) n ->
  Forall (fun x => in_class {| negated := false; members := [CDigit; CChar 46%N] |} x
                   = true) n.
Proof.
  intros H. eapply Forall_impl; [exact H|]. intros x Hx. unfold in_class.
  cbn [negated members existsb in_item xorb]. rewrite orb_false_r. exact Hx.
Qed.

Lemma record_call_step (step kind skill amount other post : text) :
  digits step -> word kind -> word skill -> number amount -> number other ->
  exists rest' : text,
    re_sub record_transaction_pattern record_transaction_repl post = inr rest' /\
    re_sub record_transaction_pattern record_transaction_repl
           (old_record_call step kind skill amount other ++ post) =
      inr (new_record_call step kind skill amount ++ rest').
Proof.
  intros [Hs1 Hs2] [Hk1 Hk2] [Hl1 Hl2] [Ha1 Ha2] [Ho1 Ho2].
  pose (cd := {| negated := false; members := [CDigit] |}).
  pose (cw := {| negated := false; members := [CWord] |}).
  pose (cn := {| negated := false; members := [CDigit; CChar 46%N] |}).
  set (R := lits (txt "person.record_transaction(")
            ++ Group [Many Plus cd]
            :: lits (txt ", ")
            ++ Group (lit_atoms (txt "TransactionType::") ++ [Many Plus cw])
            :: lits (txt ", &")
            ++ Group (Many Plus cw :: lit_atoms (txt ".id") ++ [])
            :: lits (txt ", ")
            ++ Group [Many Plus cn]
            :: lits (txt ", ")
            ++ Group [Many Plus cn]
            :: lits (txt ")") ++ []).
  assert (Hr : re_compile record_transaction_pattern = Some R)
    by (vm_compute; reflexivity).
  assert (Hm : exact_nodes R
                 (txt "person.record_transaction(" ++ (step ++ [])
                  ++ txt ", " ++ (txt "TransactionType::" ++ kind ++ [])
                  ++ txt ", &" ++ (skill ++ txt ".id" ++ [])
                  ++ txt ", " ++ (amount ++ [])
                  ++ txt ", " ++ (other ++ [])
                  ++ txt ")" ++ [])
                 post
                 [step ++ []; txt "TransactionType::" ++ kind ++ [];
                  skill ++ txt ".id" ++ []; amount ++ []; other ++ []]).
  { unfold R.
    apply exact_lits, exact_group;
      [apply exact_many;
         [exact Hs1 | apply digits_class, Hs2 | vm_compute; reflexivity
         | apply exact_atoms_end]|].
    apply exact_lits, exact_group;
      [apply exact_lit_atoms, exact_many;
         [exact Hk1 | apply word_class, Hk2 | vm_compute; reflexivity
         | apply exact_atoms_end]|].
    apply exact_lits, exact_group;
      [apply exact_many;
         [exact Hl1 | apply word_class, Hl2 | vm_compute; reflexivity
         | apply exact_lit_atoms, exact_atoms_end]|].
    apply exact_lits, exact_group;
      [apply exact_many;
         [exact Ha1 | apply number_class, Ha2 | vm_compute; reflexivity
         | apply exact_atoms_end]|].
    apply exact_lits, exact_group;
      [apply exact_many;
         [exact Ho1 | apply number_class, Ho2 | vm_compute; reflexivity
         | apply exact_atoms_end]|].
    apply exact_lits, exact_end. }
  rewrite !app_nil_r in Hm.
  destruct (re_sub_exact record_transaction_pattern record_transaction_repl
                         _ _ post _ Hr Hm) as [H1 H2].
  { unfold txt. simpl. discriminate. }
  eexists. split; [exact H2|].
  assert (Ht : parse_template (txt record_transaction_repl) =
               map TLit (txt "person.record_transaction(")
               ++ TRef 1 :: map TLit (txt ", ")
               ++ TRef 3 :: map TLit (txt ".id.clone(), ")
               ++ TRef 2 :: map TLit (txt ", ")
               ++ TRef 4 :: map TLit (txt ", None)"))
    by (vm_compute; reflexivity).
  rewrite Ht in H1 at 1.
  repeat (rewrite ?expand_app, ?expand_cons, ?expand_lits in H1).
  cbn [expand_item nth] in H1.
  unfold old_record_call, new_record_call.
  rewrite <- !app_assoc in *.
  exact H1.
Qed.
End Rewrites.

(** [re.sub pattern repl] turns an occurrence of [m] at the head of the
    text into [out] and goes on with what follows it. *)
Definition rewrites_to `{UnicodeDB} (pattern repl : string) (m out : text) : Prop :=
  forall post : text, exists rest' : text,
    re_sub pattern repl post = inr rest' /\
    re_sub pattern repl (m ++ post) = inr (out ++ rest').




Definition field_assertion (field : string) (n : text) : text :=
  txt "assert_eq!(person." ++ txt field ++ txt ", " ++ n ++ txt ");".

Section Shapes.
Context {U : UnicodeDB}.


Lemma exact_atom (a : atom) (r : regex) (m1 m2 rest : text) (cs : list text) :
  exact_atoms [a] m1 (m2 ++ rest) -> exact_nodes r m2 rest cs ->
  exact_nodes (Atom a :: r) (m1 ++ m2) rest cs.
Proof. intros Ha Hr. cbn [exact_nodes]. exists m1, m2. auto. Qed.



(** A forced match replaced by a literal text. *)
Lemma re_sub_exact_literal (pattern repl : string) (r : regex) (m out : text)
      (cs : text -> list text) :
  re_compile pattern = Some r ->
  (forall post, exact_nodes r m post (cs post)) -> m <> [] ->
  parse_template (txt repl) = map TLit out ->
  rewrites_to pattern repl m out.
Proof.
  intros Hr Hm Hne Ht post.
  destruct (re_sub_exact pattern repl r m post (cs post) Hr (Hm post) Hne) as [H1 H2].
  eexists. split; [exact H2|]. rewrite H1, Ht, expand_lits. reflexivity.
Qed.

Lemma save_call_rewrites (a : text) :
  argument a ->
  rewrites_to "result\.save_to_file\(([^)]+)\)\.unwrap\(\);"
              "result.save_to_file(\1, false).unwrap();"
              (save_call a) (save_call (a ++ txt ", false")).
Proof. intros Ha post. exact (save_call_step a post Ha). Qed.

Lemma record_call_rewrites (step kind skill amount other : text) :
  digits step -> word kind -> word skill -> number amount -> number other ->
  rewrites_to record_transaction_pattern record_transaction_repl
              (old_record_call step kind skill amount other)
              (new_record_call step kind skill amount).
Proof.
  intros Hs Hk Hl Ha Ho post.
  exact (record_call_step step kind skill amount other post Hs Hk Hl Ha Ho).
Qed.

Lemma field_assertion_removed (field : string) (n : text) :
  number n -> In field ["total_purchases_value"; "total_sales_value"] ->
  rewrites_to ("assert_eq!\(person\." ++ field ++ ", [\d.]+\);") "// Field removed"
              (field_assertion field n) (txt "// Field removed").
Proof.
  intros [Hn1 Hn2] Hf.
  pose (cn := {| negated := false; members := [CDigit; CChar 46%N] |}).
  assert (Hs : forall head : string,
             re_compile ("assert_eq!\(person\." ++ field ++ ", [\d.]+\);") =
               Some (lits (txt head) ++ Atom (Many Plus cn) :: lits (txt ");") ++ []) ->
             txt head = txt "assert_eq!(person." ++ txt field ++ txt ", " ->
             rewrites_to ("assert_eq!\(person\." ++ field ++ ", [\d.]+\);")
                         "// Field removed"
                         (field_assertion field n) (txt "// Field removed")).
  { intros head Hr Hh.
    assert (E : field_assertion field n = txt head ++ (n ++ []) ++ txt ");" ++ []).
    { unfold field_assertion. rewrite Hh, !app_nil_r, <- !app_assoc. reflexivity. }
    rewrite E.
    apply (re_sub_exact_literal _ _ _ _ _ (fun _ => []) Hr).
    - intros post. apply exact_lits, exact_atom; [|apply exact_lits, exact_end].
      apply exact_many;
        [exact Hn1 | apply number_class, Hn2 | vm_compute; reflexivity
        | apply exact_atoms_end].
    - rewrite Hh. unfold txt. simpl. discriminate.
    - vm_compute. reflexivity. }
  destruct Hf as [<-|[<-|[]]].
  - apply (Hs "assert_eq!(person.total_purchases_value, "); vm_compute; reflexivity.
  - apply (Hs "assert_eq!(person.total_sales_value, "); vm_compute; reflexivity.
Qed.





(** A [re.sub] whose pattern and replacement are literal texts is the
    [str.replace] of these texts. *)
Lemma re_sub_is_replace (pattern repl old new : string) (s : text) :
  literal_pattern pattern = Some (txt old) ->
  parse_template (txt repl) = map TLit (txt new) ->
  re_sub pattern repl s = inr (replace old new s).
Proof.
  intros Hp Ht. rewrite (re_sub_literal pattern repl (txt old) s Hp).
  - rewrite Ht, expand_lits. reflexivity.
  - rewrite Ht. clear. induction (txt new); [reflexivity | assumption].
Qed.
End Shapes.

(** X9.  fix_final.py gives every [result.save_to_file(a).unwrap();]
    whose argument [a] is not empty and holds no closing parenthesis the
    second argument [false], whatever follows the call, and goes on with
    what follows; it does so again at every run, so that [n] runs leave
    [n] copies of [, false] in the call. *)
Theorem save_to_file_gets_false `{UnicodeDB} (a : text) (n : nat) :
  argument a ->
  (forall post : text, exists rest' : text,
      add_compress_argument post = inr rest' /\
      add_compress_argument (save_call a ++ post) =
        inr (save_call (a ++ txt ", false") ++ rest')) /\
  add_compress_argument_times n (save_call a) = inr (save_call (a ++ falses n)).
Proof.
  intros Ha. split.
  - intros post. exact (save_call_step a post Ha).
  - exact (save_call_times a n Ha).
Qed.

Lemma save_to_file_gets_false_witness :
  (forall post : text, exists rest' : text,
      @add_compress_argument latin1_only post = inr rest' /\
      @add_compress_argument latin1_only (save_call (txt "path") ++ post) =
        inr (save_call (txt "path" ++ txt ", false") ++ rest')) /\
  @add_compress_argument_times latin1_only 2 (save_call (txt "path")) =
    inr (save_call (txt "path" ++ falses 2)).
Proof.
  apply (@save_to_file_gets_false latin1_only (txt "path") 2).
  split; [discriminate | vm_compute; repeat constructor; discriminate].
Defined.

(** X10.  fix_tests.py turns a call
    [person.record_transaction(step, TransactionType::kind, &skill.id, amount, other)]
    with a digit string [step], words [kind] and [skill] and numbers
    [amount] and [other] into
    [person.record_transaction(step, skill.id.id.clone(), TransactionType::kind, amount, None)]:
    the third group already ends in [.id], so the new call reads
    [.id.id.clone()], and the last argument is dropped for [None]. *)
Theorem record_transaction_call_rewritten `{UnicodeDB}
        (step kind skill amount other : text) :
  digits step -> word kind -> word skill -> number amount -> number other ->
  rewrites_to record_transaction_pattern record_transaction_repl
              (old_record_call step kind skill amount other)
              (new_record_call step kind skill amount).
Proof. apply record_call_rewrites. Qed.

Lemma record_transaction_call_rewritten_witness :
  @rewrites_to latin1_only record_transaction_pattern record_transaction_repl
    (old_record_call (txt "1") (txt "Sell") (txt "skill") (txt "10.0") (txt "5.0"))
    (new_record_call (txt "1") (txt "Sell") (txt "skill") (txt "10.0")).
Proof.
  apply (@record_transaction_call_rewritten latin1_only
           (txt "1") (txt "Sell") (txt "skill") (txt "10.0") (txt "5.0"));
    (split; [discriminate | vm_compute; repeat constructor]).
Defined.

(** X11.  fix_tests.py replaces an assertion
    [assert_eq!(person.total_purchases_value, n);] or
    [assert_eq!(person.total_sales_value, n);] on a number [n] by the
    comment [// Field removed]. *)
Theorem field_assertions_removed `{UnicodeDB} (n : text) :
  number n ->
  rewrites_to "assert_eq!\(person\.total_purchases_value, [\d.]+\);" "// Field removed"
              (field_assertion "total_purchases_value" n) (txt "// Field removed") /\
  rewrites_to "assert_eq!\(person\.total_sales_value, [\d.]+\);" "// Field removed"
              (field_assertion "total_sales_value" n) (txt "// Field removed").
Proof.
  intros Hn. split.
  - apply (field_assertion_removed "total_purchases_value" n Hn). simpl. auto.
  - apply (field_assertion_removed "total_sales_value" n Hn). simpl. auto.
Qed.

Lemma field_assertions_removed_witness :
  @rewrites_to latin1_only
     "assert_eq!\(person\.total_purchases_value, [\d.]+\);" "// Field removed"
     (field_assertion "total_purchases_value" (txt "12.5")) (txt "// Field removed") /\
  @rewrites_to latin1_only
     "assert_eq!\(person\.total_sales_value, [\d.]+\);" "// Field removed"
     (field_assertion "total_sales_value" (txt "12.5")) (txt "// Field removed").
Proof.
  apply (@field_assertions_removed latin1_only (txt "12.5")).
  split; [discriminate | vm_compute; repeat constructor].
Defined.







(** X13.  The three patterns of simplify_tests.py and the [Person::new]
    pattern of fix_final.py are literal texts once their escapes are
    read, and the replacements hold no group reference: simplify_tests.py
    is three [str.replace] calls, and fix_final.py is four [str.replace]
    calls followed by the [save_to_file] rewrite. *)
Theorem literal_patterns_are_replace `{UnicodeDB} (s : text) :
  simplify_tests_rewrite s =
    inr (replace "assert!(result.money_statistics.average > 0.0);"
           "// Average checked"
           (replace "assert!(result.trade_volume_statistics.total_trades > 0);"
              "// Trade count checked - can be 0 if no trading opportunities"
              (replace "assert!(result.money_statistics.gini_coefficient <= 1.0);"
                 "// Gini coefficient can be > 1.0 in edge cases with limited data" s))) /\
  fix_final_rewrite s =
    add_compress_argument
      (replace "result.total_trades >= 0"
         "result.trade_volume_statistics.total_trades >= 0"
         (replace "result.total_trades > 0"
            "result.trade_volume_statistics.total_trades > 0"
            (replace "let mut person = Person::new(1, 100.0, skill1, vec![skill2.id.clone()]);"
               "let mut person = Person::new(1, 100.0, vec![skill1.clone()], Strategy::Conservative, Location::new(0.0, 0.0));"
               (replace "use crate::person::{Person, TransactionType};"
                  "use crate::person::{Person, TransactionType, Strategy, Location};" s)))).
Proof.
  split.
  - unfold simplify_tests_rewrite.
    rewrite (re_sub_is_replace _ _
               "assert!(result.money_statistics.gini_coefficient <= 1.0);"
               "// Gini coefficient can be > 1.0 in edge cases with limited data")
      by (vm_compute; reflexivity).
    cbn [mbind exn_bind].
    rewrite (re_sub_is_replace _ _
               "assert!(result.trade_volume_statistics.total_trades > 0);"
               "// Trade count checked - can be 0 if no trading opportunities")
      by (vm_compute; reflexivity).
    cbn [mbind exn_bind].
    apply re_sub_is_replace; vm_compute; reflexivity.
  - unfold fix_final_rewrite.
    rewrite (re_sub_is_replace _ _
               "let mut person = Person::new(1, 100.0, skill1, vec![skill2.id.clone()]);"
               "let mut person = Person::new(1, 100.0, vec![skill1.clone()], Strategy::Conservative, Location::new(0.0, 0.0));")
      by (vm_compute; reflexivity).
    reflexivity.
Qed.
